(** * standuphub: the filter, attribute, aggregate, score and rank pipeline

    A shallow embedding of [scripts/fetch.py], [scripts/rate.py] and
    [scripts/run_pipeline.py], followed by the properties of the
    specification that are stated about them.

    Conventions of the embedding.
    - A Python [str] is a list of Unicode code points ([list N]).  String
      literals of the sources are written as UTF-8 text and decoded by [u],
      as the Python reader does for a source file in UTF-8.
    - A Python [int] is a [Z].
    - A Python [float] is idealised as a real number ([R]): [math.log1p x] is
      [ln (1 + x)], and the rounding of binary64 arithmetic is outside the
      model.  Where the rounding decides an equality, the expression is also
      evaluated in binary64 ([Binary64]).
    - The Unicode character database is not part of the repository: what the
      sources need from it beyond ASCII is the interface [UCD].
    - [Set[str]] is a [gset], a [dict] whose iteration order is observed is
      an association list in insertion order. *)

From Stdlib Require Import ZArith NArith List String Ascii Bool Lia DecimalString.
From Stdlib Require Import DecimalPos.
From Stdlib Require Import Reals Lra Permutation Sorted.
From Stdlib Require Floats Uint63.
From stdpp Require Import gmap list sets.

Abbreviation str := (list N).

(** ** Python runtime: strings, character classes and the [re] patterns used *)

Module Py.

(** Decoding of the UTF-8 bytes of a source literal into code points. *)
Fixpoint utf8_decode (bs : list N) : str :=
  match bs with
  | [] => []
  | b0 :: r0 =>
    if (b0 <? 128)%N then b0 :: utf8_decode r0
    else match r0 with
    | [] => []
    | b1 :: r1 =>
      if (b0 <? 224)%N then
        N.lor (N.shiftl (N.land b0 31) 6) (N.land b1 63) :: utf8_decode r1
      else match r1 with
      | [] => []
      | b2 :: r2 =>
        if (b0 <? 240)%N then
          N.lor (N.shiftl (N.land b0 15) 12)
            (N.lor (N.shiftl (N.land b1 63) 6) (N.land b2 63)) :: utf8_decode r2
        else match r2 with
        | [] => []
        | b3 :: r3 =>
          N.lor (N.shiftl (N.land b0 7) 18)
            (N.lor (N.shiftl (N.land b1 63) 12)
               (N.lor (N.shiftl (N.land b2 63) 6) (N.land b3 63))) :: utf8_decode r3
        end
      end
    end
  end.

Fixpoint bytes_of_string (s : string) : list N :=
  match s with
  | EmptyString => []
  | String c r => N_of_ascii c :: bytes_of_string r
  end.

(** The code points of a source literal. *)
Definition u (s : string) : str := utf8_decode (bytes_of_string s).

(** What the sources use of the Unicode database outside ASCII:
    [str.isalnum] (the [\w] class), the white space class (the [\s] class and
    [str.strip]), the equivalence of two characters under [re.IGNORECASE],
    the case folding of one character ([str.casefold]) and the value of a
    decimal digit (the [\d] class and [int]). *)
Class UCD : Type := {
  ucd_alnum : N → bool;
  ucd_space : N → bool;
  ucd_ieq : N → N → bool;
  ucd_casefold : N → list N;
  ucd_decimal : N → option Z
}.

Definition is_ascii (c : N) : bool := (c <? 128)%N.

Definition ascii_upper_letter (c : N) : bool := (65 <=? c)%N && (c <=? 90)%N.
Definition ascii_lower_letter (c : N) : bool := (97 <=? c)%N && (c <=? 122)%N.
Definition ascii_digit (c : N) : bool := (48 <=? c)%N && (c <=? 57)%N.

Definition ascii_lower (c : N) : N :=
  if ascii_upper_letter c then (c + 32)%N else c.

Section Chars.
Context {ucd : UCD}.

(** [\w] of a [str] pattern: letters, digits and the underscore. *)
Definition is_word (c : N) : bool :=
  if is_ascii c then
    ascii_upper_letter c || ascii_lower_letter c || ascii_digit c || (c =? 95)%N
  else ucd_alnum c.

(** [\s] of a [str] pattern, and the characters [str.strip] removes. *)
Definition is_space (c : N) : bool :=
  if is_ascii c then
    ((9 <=? c)%N && (c <=? 13)%N) || ((28 <=? c)%N && (c <=? 32)%N)
  else ucd_space c.

(** A pattern character [p] against a text character [c] under
    [re.IGNORECASE]. *)
Definition ieq (p c : N) : bool :=
  if is_ascii p && is_ascii c then (ascii_lower p =? ascii_lower c)%N
  else ucd_ieq p c.

(** [s.casefold()]. *)
Definition casefold (s : str) : str :=
  flat_map (fun c => if is_ascii c then [ascii_lower c] else ucd_casefold c) s.

(** [s.strip()]. *)
Fixpoint lstrip (s : str) : str :=
  match s with
  | [] => []
  | c :: r => if is_space c then lstrip r else s
  end.

Definition rstrip (s : str) : str := rev (lstrip (rev s)).

Definition strip (s : str) : str := rstrip (lstrip s).

(** [re.sub(r"\s+", " ", s)]: every maximal run of white space becomes one
    space; [in_run] tells that the previous character was white space. *)
Fixpoint sub_spaces (in_run : bool) (s : str) : str :=
  match s with
  | [] => []
  | c :: r =>
    if is_space c then
      if in_run then sub_spaces true r else 32%N :: sub_spaces true r
    else c :: sub_spaces false r
  end.

(** The literal [p] at the start of [t], compared by [eqc]; the rest of [t]
    after it. *)
Fixpoint match_here (eqc : N → N → bool) (p t : str) : option str :=
  match p with
  | [] => Some t
  | a :: p' =>
    match t with
    | [] => None
    | c :: t' => if eqc a c then match_here eqc p' t' else None
    end
  end.

(** [p in t] for two strings. *)
Fixpoint contains (p t : str) : bool :=
  match match_here N.eqb p t with
  | Some _ => true
  | None => match t with [] => false | _ :: t' => contains p t' end
  end.

(** [re.compile(lit, re.IGNORECASE).search(t)] for a pattern that is one
    literal: used for each alternative of the title patterns. *)
Fixpoint isearch (p t : str) : bool :=
  match match_here ieq p t with
  | Some _ => true
  | None => match t with [] => false | _ :: t' => isearch p t' end
  end.

(** The pattern [(?<!\w)ALIAS(?!\w)] at one position: [prev] is the
    character before the position, if any. *)
Definition lookbehind_ok (prev : option N) : bool :=
  match prev with None => true | Some c => negb (is_word c) end.

Definition lookahead_ok (rest : str) : bool :=
  match rest with [] => true | c :: _ => negb (is_word c) end.

Definition alias_at (alias : str) (prev : option N) (t : str) : bool :=
  lookbehind_ok prev &&
  match match_here ieq alias t with
  | Some rest => lookahead_ok rest
  | None => false
  end.

(** [rx.search(t)] for [rx = re.compile(rf"(?<!\w){re.escape(a)}(?!\w)",
    flags=re.IGNORECASE | re.UNICODE)]: some position of [t] matches. *)
Fixpoint alias_search_from (alias : str) (prev : option N) (t : str) : bool :=
  alias_at alias prev t ||
  match t with
  | [] => false
  | c :: t' => alias_search_from alias (Some c) t'
  end.

Definition alias_search (alias t : str) : bool := alias_search_from alias None t.

End Chars.

(** [sep.join(l)]. *)
Fixpoint join (sep : str) (l : list str) : str :=
  match l with
  | [] => []
  | [s] => s
  | s :: r => s ++ sep ++ join sep r
  end.

(** [a <= b] for two strings: the order of [sorted] on a list of [str]. *)
Fixpoint str_leb (a b : str) : bool :=
  match a, b with
  | [], _ => true
  | _ :: _, [] => false
  | x :: a', y :: b' => (x <? y)%N || ((x =? y)%N && str_leb a' b')
  end.

(** [sorted(l)] and [l.sort()] are stable: with [le x y] telling that [x]
    may stand before [y], an element is put before the first element of the
    sorted rest that it may stand before, so that equal elements keep their
    order.  [l.sort(key=k, reverse=True)] is the case
    [le x y := k y <= k x]. *)
Fixpoint insert_sorted {A} (le : A → A → bool) (x : A) (l : list A) : list A :=
  match l with
  | [] => [x]
  | y :: r => if le x y then x :: l else y :: insert_sorted le x r
  end.

Definition sorted {A} (le : A → A → bool) (l : list A) : list A :=
  foldr (insert_sorted le) [] l.

(** [s.split(sep)] for a separator of one character. *)
Fixpoint split_on (sep : N) (s : str) : list str :=
  match s with
  | [] => [[]]
  | c :: r =>
    if (c =? sep)%N then [] :: split_on sep r
    else match split_on sep r with
         | [] => [[c]]
         | p :: ps => (c :: p) :: ps
         end
  end.

(** [s.startswith(p)]. *)
Definition startswith (p s : str) : bool :=
  match match_here N.eqb p s with Some _ => true | None => false end.

(** A value of one of the types met where the sources read a table cell:
    [None], a [str] or an [int]. *)
Inductive pyval : Type :=
  | PNone
  | PStr (s : str)
  | PInt (z : Z).

Definition truthy (x : pyval) : bool :=
  match x with
  | PNone => false
  | PStr s => match s with [] => false | _ => true end
  | PInt z => negb (z =? 0)%Z
  end.

(** [a or b]. *)
Definition por (a b : pyval) : pyval := if truthy a then a else b.

(** The [str] that an [... or ""] chain evaluates to. *)
Definition as_str (x : pyval) : str :=
  match x with PStr s => s | _ => [] end.

#[global] Instance Rlt_decision (x y : R) : Decision (x < y)%R := Rlt_dec x y.
#[global] Instance Rle_decision (x y : R) : Decision (x <= y)%R := Rle_dec x y.
#[global] Instance Req_decision : EqDecision R := Req_dec_T.

(** [round(x, ndigits)]: to the nearest multiple of [10 ** -ndigits], a tie
    going to the even one. *)
Definition round_half_even (y : R) : Z :=
  let f := Zfloor y in
  let d := (y - IZR f)%R in
  if decide (d < 1 / 2)%R then f
  else if decide (1 / 2 < d)%R then (f + 1)%Z
  else if Z.even f then f else (f + 1)%Z.

Definition round (x : R) (ndigits : Z) : R :=
  (IZR (round_half_even (x * powerRZ 10 ndigits)) / powerRZ 10 ndigits)%R.

(** [str(z)] for an [int]. *)
Definition str_of_Z (z : Z) : str := u (NilEmpty.string_of_int (Z.to_int z)).

(** The conversion from text to [float] that the model takes as given:
    [int(float(s))] for a string, [None] when either call raises. *)
Class Builtins : Type := {
  int_of_float_str : str → option Z
}.

(** A [dict] in insertion order. *)
Section Dict.
Context {V : Type}.

Fixpoint dict_get (d : list (str * V)) (k : str) : option V :=
  match d with
  | [] => None
  | (k', v) :: r => if decide (k' = k) then Some v else dict_get r k
  end.

(** [d[k] = v]: an existing key keeps its place. *)
Fixpoint dict_set (d : list (str * V)) (k : str) (v : V) : list (str * V) :=
  match d with
  | [] => [(k, v)]
  | (k', v') :: r =>
    if decide (k' = k) then (k, v) :: r else (k', v') :: dict_set r k v
  end.

End Dict.

End Py.

Import Py.

(** ** scripts/rate.py *)

Module Rate.

(** *** Config *)

Definition W_TOTAL : R := 0.45.
Definition W_PEAK : R := 0.25.
Definition W_COUNT : R := 0.20.
Definition W_MINUTES : R := 0.10.

Definition SMOOTH_M_VIEWS : Z := 50000.

Definition ENABLE_ENGAGEMENT_MULTIPLIER : bool := false.
Definition ENG_MULT_CLAMP : R * R := (0.85%R, 1.15%R).

(** *** Data structures *)

Record VideoRow : Type := {
  video_id : str;
  url : str;
  title : str;
  view_count : Z;
  like_count : Z;
  duration_sec : Z;
  published_at : str;
  channel_id : str;
  channel_title : str
}.

(** A row of [videos_clean.csv]. *)
Record CleanRow : Type := {
  c_performer : str;
  c_video_id : str;
  c_url : str;
  c_title : str;
  c_view_count : Z;
  c_like_count : Z;
  c_duration_sec : Z;
  c_duration_min : R;
  c_published_at : str;
  c_channel_id : str;
  c_channel_title : str
}.

(** A row of [videos_dropped.csv]; the key [matched_performers] is present
    only in the rows of the videos with several performers. *)
Record DroppedRow : Type := {
  d_video_id : str;
  d_url : str;
  d_title : str;
  d_view_count : Z;
  d_like_count : Z;
  d_duration_sec : Z;
  d_published_at : str;
  d_channel_title : str;
  d_drop_reason : str;
  d_matched_performers : option str
}.

(** A row of [rating.csv]; the key [rank] is set after the sort. *)
Record RatingRow : Type := {
  performer : str;
  score : R;
  score_with_engagement : R;
  eng_mult : R;
  total_views : Z;
  peak_views : Z;
  video_count : Z;
  total_minutes : R;
  total_likes : Z;
  like_rate_pct : R;
  like_rate_smooth_pct : R;
  rank : option Z
}.

(** The compiled pattern [(?<!\w)ALIAS(?!\w)] of one alias, with the flags
    [re.IGNORECASE | re.UNICODE]. *)
Record Pattern : Type := { pat_alias : str }.

Section Helpers.
Context {ucd : UCD} {builtins : Builtins}.

(** *** Helpers *)

Definition is_id_char (c : N) : bool :=
  ascii_upper_letter c || ascii_lower_letter c || ascii_digit c
  || (c =? 95)%N || (c =? 45)%N.

(** [[A-Za-z0-9_-]{11}] at the start of [t]. *)
Definition id11 (t : str) : option str :=
  let g := take 11 t in
  if (length g =? 11)%nat && forallb is_id_char g then Some g else None.

(** [_YT_ID_RE] at the start of [t], the alternatives in their order. *)
Fixpoint yt_id_alts (alts : list str) (t : str) : option str :=
  match alts with
  | [] => None
  | a :: alts' =>
    match match_here N.eqb a t with
    | Some rest =>
      match id11 rest with
      | Some g => Some g
      | None => yt_id_alts alts' t
      end
    | None => yt_id_alts alts' t
    end
  end.

Definition yt_id_at (t : str) : option str :=
  yt_id_alts [u "v="; u "/shorts/"; u "youtu.be/"] t.

(** [_YT_ID_RE.search(s)], group 1 of the leftmost match. *)
Fixpoint yt_id_search (t : str) : option str :=
  match yt_id_at t with
  | Some g => Some g
  | None => match t with [] => None | _ :: t' => yt_id_search t' end
  end.

Definition extract_video_id (url_or_id : str) : option str :=
  let s := strip url_or_id in
  match s with
  | [] => None
  | _ =>
    if (length s =? 11)%nat && forallb is_id_char s then Some s
    else yt_id_search s
  end.

(** [parse_int]: the cell is [None], a string or the literal [0] that ends
    an [or] chain; [int(float(str(z)))] is [z] for an [int]. *)
Definition parse_int (x : pyval) (default : Z) : Z :=
  match x with
  | PNone => default
  | PInt z => z
  | PStr s0 =>
    let s := List.filter (λ c, negb (c =? 32)%N) (strip s0) in
    match s with
    | [] => default
    | _ => match int_of_float_str s with Some z => z | None => default end
    end
  end.

(** [\d]: a decimal digit and its value. *)
Definition digit_value (c : N) : option Z :=
  if is_ascii c then
    if ascii_digit c then Some (Z.of_N c - 48)%Z else None
  else ucd_decimal c.

(** A run of digits: its value read so far, and the rest. *)
Fixpoint digits (acc : Z) (n : nat) (t : str) : Z * nat * str :=
  match t with
  | [] => (acc, n, [])
  | c :: t' =>
    match digit_value c with
    | Some d => digits (10 * acc + d)%Z (S n) t'
    | None => (acc, n, t)
    end
  end.

(** One optional group [(?:(\d+)X)?]: the value of the group (0 when the
    group is absent) and the rest. *)
Definition iso_group (letter : N) (t : str) : Z * str :=
  match digits 0 0 t with
  | (v, S _, c :: rest) => if (c =? letter)%N then (v, rest) else (0%Z, t)
  | _ => (0%Z, t)
  end.

Definition parse_duration_iso8601 (d0 : str) : Z :=
  let d := strip d0 in
  match match_here N.eqb (u "PT") d with
  | None => 0
  | Some t0 =>
    let '(h, t1) := iso_group 72 t0 in
    let '(mm, t2) := iso_group 77 t1 in
    let '(s, t3) := iso_group 83 t2 in
    match t3 with
    | [] => (h * 3600 + mm * 60 + s)%Z
    | _ => 0
    end
  end.

Definition safe_casefold (s : str) : str := casefold s.

Definition normalize_spaces (s : str) : str := strip (sub_spaces false s).

(** *** Loaders *)

(** [load_exceptions]: [file] is the list of the lines of [exceptions.txt],
    or [None] when the file does not exist.  The result is the pair of the
    excluded identifiers and of the excluded locators. *)
Definition load_exceptions_line (acc : gset str * gset str) (raw : str)
  : gset str * gset str :=
  let '(excluded_ids, excluded_urls) := acc in
  let line := strip raw in
  match line with
  | [] => acc
  | _ =>
    if startswith (u "#") line then acc
    else
      let excluded_urls := excluded_urls ∪ {[ line ]} in
      match extract_video_id line with
      | Some vid => (excluded_ids ∪ {[ vid ]}, excluded_urls)
      | None => (excluded_ids, excluded_urls)
      end
  end.

Definition load_exceptions (file : option (list str)) : gset str * gset str :=
  match file with
  | None => (∅, ∅)
  | Some lines => foldl load_exceptions_line (∅, ∅) lines
  end.

(** The aliases of one line, without repetition up to case. *)
Definition dedup_alias (acc : list str * gset str) (a0 : str)
  : list str * gset str :=
  let '(aliases, seen) := acc in
  let a := normalize_spaces a0 in
  match a with
  | [] => acc
  | _ =>
    let key := safe_casefold a in
    if decide (key ∈ seen) then acc
    else (aliases ++ [a], seen ∪ {[ key ]})
  end.

Definition load_performers_line (canonical_to_aliases : list (str * list str))
    (raw : str) : list (str * list str) :=
  let line := strip raw in
  match line with
  | [] => canonical_to_aliases
  | _ =>
    if startswith (u "#") line then canonical_to_aliases
    else
      let parts := map normalize_spaces (split_on 124 line) in
      let parts := List.filter (λ p, negb (bool_decide (p = []))) parts in
      match parts with
      | [] => canonical_to_aliases
      | canonical :: rest =>
        let aliases := fst (foldl dedup_alias ([], ∅) (canonical :: rest)) in
        dict_set canonical_to_aliases canonical aliases
      end
  end.

(** The patterns of one performer (the inner loop of the compilation). *)
Definition compile_aliases (canonical : str) (aliases : list str)
  : list (str * Pattern) :=
  flat_map (λ alias,
    let a := strip alias in
    match a with
    | [] => []
    | _ => [(canonical, {| pat_alias := a |})]
    end) aliases.

Definition compile_table (canonical_to_aliases : list (str * list str))
  : list (str * Pattern) :=
  flat_map (λ '(canonical, aliases), compile_aliases canonical aliases)
    canonical_to_aliases.

Definition load_performers (text : list str)
  : list (str * list str) * list (str * Pattern) :=
  let canonical_to_aliases := foldl load_performers_line [] text in
  (canonical_to_aliases, compile_table canonical_to_aliases).

(** [r.get(k)] on a row of [csv.DictReader]. *)
Definition get (r : gmap str str) (k : string) : pyval :=
  match r !! u k with Some s => PStr s | None => PNone end.

(** The body of the loop of [read_videos_csv]: [None] is [continue]. *)
Definition read_row (r : gmap str str) : option VideoRow :=
  let url := strip (as_str (por (get r "url") (por (get r "video_url") (PStr [])))) in
  let vid := strip (as_str (por (get r "video_id") (por (get r "id") (PStr [])))) in
  let vid :=
    match vid with
    | [] => match extract_video_id url with Some g => g | None => [] end
    | _ => vid
    end in
  let url :=
    match url, vid with
    | [], _ :: _ => u "https://www.youtube.com/watch?v=" ++ vid
    | _, _ => url
    end in
  let title := strip (as_str (por (get r "title") (PStr []))) in
  let views :=
    parse_int (por (get r "view_count") (por (get r "views")
      (por (get r "viewCount") (por (get r "viewcount") (PInt 0))))) 0 in
  let likes :=
    parse_int (por (get r "like_count") (por (get r "likes")
      (por (get r "likeCount") (por (get r "likecount") (PInt 0))))) 0 in
  let dur :=
    por (get r "duration_sec") (por (get r "duration_seconds")
      (por (get r "length_seconds") (get r "lengthSeconds"))) in
  let duration_sec := parse_int dur 0 in
  let duration_sec :=
    if (duration_sec =? 0)%Z then
      let iso :=
        strip (as_str (por (get r "duration")
          (por (get r "contentDetails.duration") (PStr [])))) in
      if startswith (u "PT") iso then parse_duration_iso8601 iso
      else duration_sec
    else duration_sec in
  let published_at :=
    strip (as_str (por (get r "published_at") (por (get r "published")
      (por (get r "publishedAt") (PStr []))))) in
  let channel_id :=
    strip (as_str (por (get r "channel_id") (por (get r "channelId") (PStr [])))) in
  let channel_title :=
    strip (as_str (por (get r "channel_title")
      (por (get r "channelTitle") (PStr [])))) in
  match vid with
  | [] => None
  | _ =>
    Some {| video_id := vid; url := url; title := title;
            view_count := views; like_count := likes;
            duration_sec := duration_sec; published_at := published_at;
            channel_id := channel_id; channel_title := channel_title |}
  end.

Definition read_videos_csv (reader : list (gmap str str)) : list VideoRow :=
  omap read_row reader.

(** *** Core logic *)

Definition rx_search (rx : Pattern) (t : str) : bool :=
  alias_search (pat_alias rx) t.

Definition match_performers_in_title (title : str)
    (compiled_aliases : list (str * Pattern)) : gset str :=
  let t := normalize_spaces title in
  foldl (λ (matched : gset str) '(canonical, rx),
           if rx_search rx t then matched ∪ {[ canonical ]} else matched)
        ∅ compiled_aliases.

Definition log1p (x : R) : R := ln (1 + x).

Definition compute_base_score (total_views peak_views video_count : Z)
    (total_minutes : R) : R :=
  let T := log1p (IZR (Z.max 0 total_views)) in
  let P := log1p (IZR (Z.max 0 peak_views)) in
  let V := log1p (IZR (Z.max 0 video_count)) in
  let D := log1p (Rmax 0 total_minutes) in
  (W_TOTAL * T + W_PEAK * P + W_COUNT * V + W_MINUTES * D)%R.

Definition clamp (x lo hi : R) : R := Rmax lo (Rmin hi x).

(** *** [main] *)

(** The variables of [main] that the loop over the videos updates. *)
Record State : Type := {
  clean_rows : list CleanRow;
  dropped_rows : list DroppedRow;
  per_views : list (str * list Z);
  per_minutes : gmap str R;
  per_likes : gmap str Z;
  global_views : Z;
  global_likes : Z
}.

Definition init : State :=
  {| clean_rows := []; dropped_rows := []; per_views := [];
     per_minutes := ∅; per_likes := ∅; global_views := 0; global_likes := 0 |}.

Definition dropped_row (v : VideoRow) (reason : string)
    (matched_performers : option str) : DroppedRow :=
  {| d_video_id := video_id v; d_url := url v; d_title := title v;
     d_view_count := view_count v; d_like_count := like_count v;
     d_duration_sec := duration_sec v; d_published_at := published_at v;
     d_channel_title := channel_title v;
     d_drop_reason := u reason;
     d_matched_performers := matched_performers |}.

Definition clean_row (performer : str) (v : VideoRow) : CleanRow :=
  {| c_performer := performer;
     c_video_id := video_id v; c_url := url v; c_title := title v;
     c_view_count := view_count v; c_like_count := like_count v;
     c_duration_sec := duration_sec v;
     c_duration_min :=
       if (duration_sec v =? 0)%Z then 0%R
       else round (IZR (duration_sec v) / 60)%R 3;
     c_published_at := published_at v;
     c_channel_id := channel_id v; c_channel_title := channel_title v |}.

Definition drop (st : State) (d : DroppedRow) : State :=
  {| clean_rows := clean_rows st; dropped_rows := dropped_rows st ++ [d];
     per_views := per_views st; per_minutes := per_minutes st;
     per_likes := per_likes st;
     global_views := global_views st; global_likes := global_likes st |}.

(** The statements of the loop after the three [continue]s. *)
Definition rate (st : State) (performer : str) (v : VideoRow) : State :=
  {| clean_rows := clean_rows st ++ [clean_row performer v];
     dropped_rows := dropped_rows st;
     per_views :=
       dict_set (per_views st) performer
         (default [] (dict_get (per_views st) performer) ++ [view_count v]);
     per_minutes :=
       <[ performer :=
            (default 0%R (per_minutes st !! performer)
             + (if (duration_sec v =? 0)%Z then 0
                else IZR (duration_sec v) / 60))%R ]> (per_minutes st);
     per_likes :=
       <[ performer :=
            (default 0 (per_likes st !! performer) + like_count v)%Z ]>
         (per_likes st);
     global_views := (global_views st + view_count v)%Z;
     global_likes := (global_likes st + like_count v)%Z |}.

(** [v.video_id in excluded_ids or v.url in excluded_urls]. *)
Definition excluded (excluded_ids excluded_urls : gset str) (v : VideoRow) : bool :=
  bool_decide (video_id v ∈ excluded_ids) || bool_decide (url v ∈ excluded_urls).

(** One turn of [for v in videos].  [next(iter(matched))] is taken where
    [matched] has one element; it is the first of [elements matched]. *)
Definition step (excluded_ids excluded_urls : gset str)
    (compiled_aliases : list (str * Pattern)) (st : State) (v : VideoRow) : State :=
  if excluded excluded_ids excluded_urls v then
    drop st (dropped_row v "exception" None)
  else
    let matched := match_performers_in_title (title v) compiled_aliases in
    if (size matched =? 0)%nat then
      drop st (dropped_row v "no_performer_in_title" None)
    else if (1 <? size matched)%nat then
      drop st (dropped_row v "multiple_performers_in_title"
                 (Some (join (u "; ") (sorted str_leb (elements matched)))))
    else
      match elements matched with
      | performer :: _ => rate st performer v
      | [] => st
      end.

Definition loop (excluded_ids excluded_urls : gset str)
    (compiled_aliases : list (str * Pattern)) (videos : list VideoRow) : State :=
  foldl (step excluded_ids excluded_urls compiled_aliases) init videos.

(** [sum(views_list)] and [max(views_list) if views_list else 0]. *)
Definition sum_views (l : list Z) : Z := foldl Z.add 0%Z l.

Definition max_or_0 (l : list Z) : Z :=
  match l with
  | [] => 0%Z
  | x :: r => foldl Z.max x r
  end.

(** The global prior mean like rate. *)
Definition prior (global_likes global_views : Z) : R :=
  if (0 <? global_views)%Z then (IZR global_likes / IZR global_views)%R else 0%R.

Definition like_rate_smooth (total_likes total_views M : Z) (p0 : R) : R :=
  if (0 <? total_views + M)%Z
  then ((IZR total_likes + IZR M * p0) / IZR (total_views + M))%R
  else 0%R.

(** The body of [for performer, views_list in per_views.items()]; [enable]
    is [ENABLE_ENGAGEMENT_MULTIPLIER]. *)
Definition rating_row (enable : bool) (st : State) (p0 : R)
    (item : str * list Z) : RatingRow :=
  let '(performer, views_list) := item in
  let M := SMOOTH_M_VIEWS in
  let total_views := sum_views views_list in
  let peak_views := max_or_0 views_list in
  let video_count := Z.of_nat (length views_list) in
  let total_minutes := default 0%R (per_minutes st !! performer) in
  let total_likes := default 0%Z (per_likes st !! performer) in
  let base_score :=
    compute_base_score total_views peak_views video_count total_minutes in
  let like_rate :=
    if (0 <? total_views)%Z then (IZR total_likes / IZR total_views)%R else 0%R in
  let like_rate_smooth := like_rate_smooth total_likes total_views M p0 in
  let '(eng_mult, score_with_engagement) :=
    if enable && bool_decide (0 < p0)%R then
      let eng_mult := (1 + 0.5 * ((like_rate_smooth - p0) / p0))%R in
      let eng_mult := clamp eng_mult (fst ENG_MULT_CLAMP) (snd ENG_MULT_CLAMP) in
      (eng_mult, (base_score * eng_mult)%R)
    else (1%R, base_score) in
  {| performer := performer;
     score := round base_score 8;
     score_with_engagement := round score_with_engagement 8;
     eng_mult := round eng_mult 6;
     total_views := total_views;
     peak_views := peak_views;
     video_count := video_count;
     total_minutes := round total_minutes 3;
     total_likes := total_likes;
     like_rate_pct := round (like_rate * 100) 4;
     like_rate_smooth_pct := round (like_rate_smooth * 100) 4;
     rank := None |}.

Definition sort_key (enable : bool) (r : RatingRow) : R :=
  if enable then score_with_engagement r else score r.

(** [rating_rows.sort(key=lambda r: r[sort_key], reverse=True)]. *)
Definition sort_rows (enable : bool) (rows : list RatingRow) : list RatingRow :=
  sorted (λ a b, bool_decide (sort_key enable b <= sort_key enable a)%R) rows.

Definition set_rank (r : RatingRow) (i : Z) : RatingRow :=
  {| performer := performer r; score := score r;
     score_with_engagement := score_with_engagement r; eng_mult := eng_mult r;
     total_views := total_views r; peak_views := peak_views r;
     video_count := video_count r; total_minutes := total_minutes r;
     total_likes := total_likes r; like_rate_pct := like_rate_pct r;
     like_rate_smooth_pct := like_rate_smooth_pct r; rank := Some i |}.

(** [for i, r in enumerate(rating_rows, start): r["rank"] = i]. *)
Fixpoint assign_ranks (start : Z) (rows : list RatingRow) : list RatingRow :=
  match rows with
  | [] => []
  | r :: rows' => set_rank r start :: assign_ranks (start + 1) rows'
  end.

Definition rating (enable : bool) (st : State) : list RatingRow :=
  let p0 := prior (global_likes st) (global_views st) in
  let rating_rows := map (rating_row enable st p0) (per_views st) in
  assign_ranks 1 (sort_rows enable rating_rows).

(** What [main] writes: [videos_clean.csv], [videos_dropped.csv] and
    [rating.csv]. *)
Record Output : Type := {
  out_clean : list CleanRow;
  out_dropped : list DroppedRow;
  out_rating : list RatingRow
}.

(** [main], from the contents of its three input files, with the value of
    [ENABLE_ENGAGEMENT_MULTIPLIER] as [enable]. *)
Definition main_with (enable : bool) (exceptions : option (list str))
    (performers : list str) (videos_csv : list (gmap str str)) : Output :=
  let '(excluded_ids, excluded_urls) := load_exceptions exceptions in
  let compiled_aliases := snd (load_performers performers) in
  let videos := read_videos_csv videos_csv in
  let st := loop excluded_ids excluded_urls compiled_aliases videos in
  {| out_clean := clean_rows st;
     out_dropped := dropped_rows st;
     out_rating := rating enable st |}.

Definition main := main_with ENABLE_ENGAGEMENT_MULTIPLIER.

End Helpers.

End Rate.

(** ** scripts/fetch.py *)

Module Fetch.

(** *** Config *)

(** A [datetime] by what the script observes of it: its place on the time
    line (microseconds since the epoch) and the text of [isoformat()]. *)
Record datetime : Type := { instant : Z; isoformat : str }.

(** [datetime(2022, 2, 24, tzinfo=timezone.utc)]. *)
Definition CUTOFF_DATE : Z := 1645660800000000.

Definition MIN_SEC : Z := 4 * 60.
Definition MAX_SEC : Z := 2 * 60 * 60.

(** A title pattern: alternatives under [re.IGNORECASE], each a literal, or
    a literal followed by [\w*], which also matches the empty string and so
    never decides whether [search] finds a match. *)
Record TitleRe : Type := { alternatives : list str }.

Definition RE_TITLE_PODCAST : TitleRe :=
  {| alternatives := [u "подкаст"; u "підкаст"; u "podcast"] |}.
Definition RE_TITLE_IMPROV : TitleRe :=
  {| alternatives := [u "імпровізаці"; u "improv"] |}.
Definition RE_TITLE_ROZGONY : TitleRe :=
  {| alternatives := [u "розгони"; u "загони"] |}.
Definition RE_TITLE_HVYLYNA : TitleRe :=
  {| alternatives := [u "хвилина"; u "уваги"] |}.

Definition BANNED_TITLE_PHRASES : list str :=
  [u "я знаю де ти живеш"; u "МЕДИЧНІ ІСТОРІЇ"; u "КРАУД-ВОРК"; u "ВЛОГ"].

(** *** Models *)

Record Video : Type := {
  video_id : str;
  url : str;
  channel_id : str;
  channel_title : str;
  title : str;
  published_at : datetime;
  duration_sec : Z;
  view_count : option Z;
  like_count : option Z;
  comment_count : option Z
}.

(** A row of [filtered_videos.csv] or of [rejected_videos.csv]; the key
    [reject_reason] is present only in the second. *)
Record Row : Type := {
  r_published_at : str;
  r_channel_title : str;
  r_channel_id : str;
  r_title : str;
  r_duration_sec : Z;
  r_duration_min : R;
  r_view_count : pyval;
  r_like_count : pyval;
  r_comment_count : pyval;
  r_url : str;
  r_video_id : str;
  r_reject_reason : option str
}.

Definition STANDUP_KEYWORDS : list str := [u "стендап"; u "stand up"; u "standup"].

Section Fetch.
Context {ucd : UCD}.

(** [parse_duration]: [re.fullmatch] of [PT(?:(\d+)H)?(?:(\d+)M)?(?:(\d+)S)?]
    on the text as it is. *)
Definition parse_duration (d : str) : Z :=
  match match_here N.eqb (u "PT") d with
  | None => 0
  | Some t0 =>
    let '(h, t1) := Rate.iso_group 72 t0 in
    let '(mm, t2) := Rate.iso_group 77 t1 in
    let '(s, t3) := Rate.iso_group 83 t2 in
    match t3 with
    | [] => (h * 3600 + mm * 60 + s)%Z
    | _ => 0
    end
  end.

(** [s.split("|", 1)]. *)
Fixpoint split_once (sep : N) (s : str) : list str :=
  match s with
  | [] => [[]]
  | c :: r =>
    if (c =? sep)%N then [[]; r]
    else match split_once sep r with
         | p :: ps => (c :: p) :: ps
         | [] => [[c]]
         end
  end.

(** [load_channel_exceptions]: [file] is the list of the lines of the file,
    or [None] when there is no file; the result is [None] when a line has no
    separator, where the unpacking raises. *)
Definition load_channel_exceptions_line
    (acc : option (gmap str (gset str))) (raw : str)
  : option (gmap str (gset str)) :=
  match acc with
  | None => None
  | Some exceptions =>
    let line := strip raw in
    match line with
    | [] => acc
    | _ =>
      if startswith (u "#") line then acc
      else match map strip (split_once 124 line) with
           | [channel_id; flag] =>
             Some (<[ channel_id :=
                      default ∅ (exceptions !! channel_id) ∪ {[ flag ]} ]>
                     exceptions)
           | _ => None
           end
    end
  end.

Definition load_channel_exceptions (file : option (list str))
  : option (gmap str (gset str)) :=
  match file with
  | None => Some ∅
  | Some lines => foldl load_channel_exceptions_line (Some ∅) lines
  end.

(** *** Rule engine *)

(** The global [CHANNEL_EXCEPTIONS]. *)
Variable CHANNEL_EXCEPTIONS : gmap str (gset str).

Definition rule_after_cutoff (v : Video) : bool * str :=
  if (CUTOFF_DATE <=? instant (published_at v))%Z then (true, [])
  else (false, u "before_2022_02_24").

Definition rule_min_duration (v : Video) : bool * str :=
  if (MIN_SEC <? duration_sec v)%Z then (true, [])
  else (false, u "too_short_<=_" ++ str_of_Z MIN_SEC ++ u "s").

Definition rule_max_duration (v : Video) : bool * str :=
  if (duration_sec v <? MAX_SEC)%Z then (true, [])
  else (false, u "too_long_>=_" ++ str_of_Z MAX_SEC ++ u "s").

Definition rule_title_has_standup (v : Video) : bool * str :=
  let channel_id := channel_id v in
  if negb (bool_decide (channel_id = []))
     && match CHANNEL_EXCEPTIONS !! channel_id with
        | Some flags => bool_decide (u "allow_without_standup_keyword" ∈ flags)
        | None => false
        end
  then (true, u "channel_exception:standup_keyword")
  else
    let title := casefold (title v) in
    if existsb (λ kw, contains kw title) STANDUP_KEYWORDS then (true, [])
    else (false, u "no_standup_keyword").

(** [rx.search(t)] for a title pattern. *)
Definition re_search (rx : TitleRe) (t : str) : bool :=
  existsb (λ alt, isearch alt t) (alternatives rx).

Definition rule_title_not_podcast (v : Video) : bool * str :=
  if re_search RE_TITLE_PODCAST (title v) then (false, u "title_has_podcast")
  else (true, []).

Definition rule_title_not_improv (v : Video) : bool * str :=
  if re_search RE_TITLE_IMPROV (title v) then (false, u "title_has_improv")
  else (true, []).

Definition rule_title_not_rozgony (v : Video) : bool * str :=
  if re_search RE_TITLE_ROZGONY (title v) then (false, u "title_has_rozgony")
  else (true, []).

Definition rule_title_not_hvylyna (v : Video) : bool * str :=
  if re_search RE_TITLE_HVYLYNA (title v) then (false, u "title_has_hvylyna")
  else (true, []).

Definition rule_no_banned_phrases (v : Video) : bool * str :=
  let title_cf := casefold (title v) in
  match List.filter (λ phrase, contains (casefold phrase) title_cf)
               BANNED_TITLE_PHRASES with
  | phrase :: _ => (false, u "banned_phrase:" ++ phrase)
  | [] => (true, [])
  end.

Definition RULES : list (Video → bool * str) :=
  [ rule_after_cutoff;
    rule_min_duration;
    rule_max_duration;
    rule_title_has_standup;
    rule_title_not_podcast;
    rule_title_not_improv;
    rule_title_not_rozgony;
    rule_title_not_hvylyna;
    rule_no_banned_phrases ].

End Fetch.

(** A rule is a callable: calling it gives a verdict and may change the
    state [S] of the interpreter, which the call order makes observable. *)
Definition Rule (S : Type) : Type := Video → S → (bool * str) * S.

(** A rule that is a function of the video alone, as those of [RULES]. *)
Definition pure {S : Type} (r : Video → bool * str) : Rule S :=
  λ v s, (r v, s).

Fixpoint apply_rules {S : Type} (v : Video) (rules : list (Rule S)) (s : S)
  : (bool * list str) * S :=
  match rules with
  | [] => ((true, []), s)
  | r :: rules' =>
    let '((ok, reason), s') := r v s in
    if ok then apply_rules v rules' s' else ((false, [reason]), s')
  end.

(** *** [main] *)

Section Main.
Context {ucd : UCD}.
Variable CHANNEL_EXCEPTIONS : gmap str (gset str).

Definition cell (x : option Z) : pyval :=
  match x with Some z => PInt z | None => PStr [] end.

Definition row (v : Video) : Row :=
  {| r_published_at := isoformat (published_at v);
     r_channel_title := channel_title v;
     r_channel_id := channel_id v;
     r_title := title v;
     r_duration_sec := duration_sec v;
     r_duration_min := round (IZR (duration_sec v) / 60)%R 2;
     r_view_count := cell (view_count v);
     r_like_count := cell (like_count v);
     r_comment_count := cell (comment_count v);
     r_url := url v;
     r_video_id := video_id v;
     r_reject_reason := None |}.

(** [rej = dict(row); rej["reject_reason"] = reason]. *)
Definition with_reason (r : Row) (reason : str) : Row :=
  {| r_published_at := r_published_at r; r_channel_title := r_channel_title r;
     r_channel_id := r_channel_id r; r_title := r_title r;
     r_duration_sec := r_duration_sec r; r_duration_min := r_duration_min r;
     r_view_count := r_view_count r; r_like_count := r_like_count r;
     r_comment_count := r_comment_count r; r_url := r_url r;
     r_video_id := r_video_id r; r_reject_reason := Some reason |}.

(** One turn of [for v in videos] on the lists [accepted_rows] and
    [rejected_rows]. *)
Definition step (st : list Row * list Row) (v : Video) : list Row * list Row :=
  let '(accepted_rows, rejected_rows) := st in
  let '(ok, reasons) :=
    fst (apply_rules v (map pure (RULES CHANNEL_EXCEPTIONS)) tt) in
  if ok then (accepted_rows ++ [row v], rejected_rows)
  else (accepted_rows,
        rejected_rows ++ [with_reason (row v) (join (u ";") reasons)]).

(** The two loops of [main]; [channels] is, for each channel of
    [channels.txt] in turn, the list of the videos retrieved for it. *)
Definition loop (channels : list (list Video)) : list Row * list Row :=
  foldl (λ st videos, foldl step st videos) ([], []) channels.

Record Output : Type := {
  accepted : list Row;
  rejected : list Row
}.

Definition main (channels : list (list Video)) : Output :=
  let '(accepted_rows, rejected_rows) := loop channels in
  {| accepted :=
       sorted (λ a b, str_leb (r_published_at b) (r_published_at a))
         accepted_rows;
     rejected := rejected_rows |}.

End Main.

End Fetch.

(** ** The smoothing in binary64

    The expressions of the prior mean and of the smoothed like rate in the
    arithmetic of a Python [float] (IEEE 754 binary64, rounding to nearest,
    ties to even), to evaluate them where the rounding shows.  The integers
    are below [2 ^ 53] in magnitude, where [float(z)] is exact. *)

Module Binary64.

Definition of_int (z : Z) : PrimFloat.float :=
  match z with
  | Z0 => PrimFloat.of_uint63 (Uint63.of_Z 0)
  | Zpos _ => PrimFloat.of_uint63 (Uint63.of_Z z)
  | Zneg p => PrimFloat.opp (PrimFloat.of_uint63 (Uint63.of_Z (Zpos p)))
  end.

Definition prior (global_likes global_views : Z) : PrimFloat.float :=
  if (0 <? global_views)%Z
  then PrimFloat.div (of_int global_likes) (of_int global_views)
  else of_int 0.

Definition like_rate_smooth (total_likes total_views M : Z)
    (p0 : PrimFloat.float) : PrimFloat.float :=
  if (0 <? total_views + M)%Z
  then PrimFloat.div
         (PrimFloat.add (of_int total_likes) (PrimFloat.mul (of_int M) p0))
         (of_int (total_views + M))
  else of_int 0.

(** The four weights of [rate.py] as Python has them: the binary64 values
    nearest to the decimal literals. *)
Import PrimFloat.
Local Set Warnings "-inexact-float".

Definition W_TOTAL : float := 0.45%float.
Definition W_PEAK : float := 0.25%float.
Definition W_COUNT : float := 0.20%float.
Definition W_MINUTES : float := 0.10%float.


End Binary64.

(** ** scripts/run_pipeline.py *)

Module Pipeline.

(** [str(x)] for a cell that is an [int], a [str] or [None]. *)
Definition cell_text (x : pyval) : str :=
  match x with
  | PNone => []
  | PStr s => s
  | PInt z => str_of_Z z
  end.

(** A row that [export_csv] writes to [filtered_videos.csv], as
    [csv.DictReader] gives it back to [rate.py].  The file is written with
    the encoding [utf-8-sig] and read with [utf-8], so that the name of the
    first column starts with U+FEFF.  The column [duration_min], which
    [rate.py] does not read, is left out. *)
Definition filtered_csv_row (r : Fetch.Row) : gmap str str :=
  list_to_map
    [ (65279%N :: u "published_at", Fetch.r_published_at r);
      (u "channel_title", Fetch.r_channel_title r);
      (u "channel_id", Fetch.r_channel_id r);
      (u "title", Fetch.r_title r);
      (u "duration_sec", str_of_Z (Fetch.r_duration_sec r));
      (u "view_count", cell_text (Fetch.r_view_count r));
      (u "like_count", cell_text (Fetch.r_like_count r));
      (u "comment_count", cell_text (Fetch.r_comment_count r));
      (u "url", Fetch.r_url r);
      (u "video_id", Fetch.r_video_id r) ].

Record Output : Type := {
  fetched : Fetch.Output;
  rated : Rate.Output
}.

(** [main]: [scripts/fetch.py], then [scripts/rate.py] on the file that the
    first has written ([scripts/export_json.py] only reads the result). *)
Definition main {ucd : UCD} {builtins : Builtins} (enable : bool)
    (CHANNEL_EXCEPTIONS : gmap str (gset str))
    (channels : list (list Fetch.Video))
    (exceptions : option (list str)) (performers : list str) : Output :=
  let fetched := Fetch.main CHANNEL_EXCEPTIONS channels in
  {| fetched := fetched;
     rated :=
       Rate.main_with enable exceptions performers
         (map filtered_csv_row (Fetch.accepted fetched)) |}.

End Pipeline.

(** ** Instances for the examples

    The examples are written in ASCII and their numeric cells are integers
    in decimal digits: beyond that, [ascii_ucd] knows no character class and
    [integer_cells] reads no number. *)

Definition ascii_ucd : UCD :=
  {| ucd_alnum := λ _, false;
     ucd_space := λ _, false;
     ucd_ieq := N.eqb;
     ucd_casefold := λ c, [c];
     ucd_decimal := λ _, None |}.

Fixpoint decimal (acc : Z) (s : str) : option Z :=
  match s with
  | [] => Some acc
  | c :: r =>
    if ascii_digit c then decimal (10 * acc + (Z.of_N c - 48))%Z r else None
  end.

Definition integer_cells : Builtins :=
  {| int_of_float_str := λ s,
       match s with
       | [] => None
       | 45%N :: (_ :: _) as r => Z.opp <$> decimal 0 r
       | _ => decimal 0 s
       end |}.

(** The performers file and some rows of the table of videos. *)
Definition ex_performers : list str :=
  [u "# canonical | aliases"; u "Ivan | Vanya"; u "Olena Petrenko | Olena"].

Definition ex_table : list (str * Rate.Pattern) :=
  snd (Rate.load_performers (ucd := ascii_ucd) ex_performers).

Definition ex_video (id title : string) (views likes : Z) : Rate.VideoRow :=
  {| Rate.video_id := u id;
     Rate.url := u "https://www.youtube.com/watch?v=" ++ u id;
     Rate.title := u title;
     Rate.view_count := views;
     Rate.like_count := likes;
     Rate.duration_sec := 600;
     Rate.published_at := u "2023-05-01T18:00:00+00:00";
     Rate.channel_id := u "UCexample";
     Rate.channel_title := u "Stand-up club" |}.

Definition ex_ivan : Rate.VideoRow := ex_video "aaaaaaaaaaa" "Ivan speaks" 1000 10.
Definition ex_nobody : Rate.VideoRow := ex_video "bbbbbbbbbbb" "Ivanenko speaks" 500 5.
Definition ex_duo : Rate.VideoRow := ex_video "ccccccccccc" "Olena and Vanya" 700 7.

(** A video as [fetch.py] retrieves it, and the exceptions file. *)
Definition ex_fetched (id title iso : string) (published : Z) (duration : Z)
  : Fetch.Video :=
  {| Fetch.video_id := u id;
     Fetch.url := u "https://www.youtube.com/watch?v=" ++ u id;
     Fetch.channel_id := u "UCexample";
     Fetch.channel_title := u "Stand-up club";
     Fetch.title := u title;
     Fetch.published_at :=
       {| Fetch.instant := published; Fetch.isoformat := u iso |};
     Fetch.duration_sec := duration;
     Fetch.view_count := Some 1000%Z;
     Fetch.like_count := Some 10%Z;
     Fetch.comment_count := None |}.

(** Published in 2020, two minutes long, and no keyword in the title. *)
Definition ex_old : Fetch.Video :=
  ex_fetched "eeeeeeeeeee" "Ivan speaks" "2020-09-13T12:26:40+00:00"
    1600000000000000 120.

(** Published in 2023, ten minutes long, with a keyword in the title. *)
Definition ex_recent : Fetch.Video :=
  ex_fetched "fffffffffff" "Ivan: stand up" "2023-11-14T22:13:20+00:00"
    1700000000000000 600.

Definition ex_exceptions : list str :=
  [u "# excluded"; u "https://youtu.be/eeeeeeeeeee"; u "fffffffffff"].

(** ** Vocabulary of the properties *)

(** A rule that counts its calls in the state. *)
Definition counting (r : Fetch.Video → bool * str) : Fetch.Rule nat :=
  λ v calls, (r v, S calls).

(** The cell of the locator of a row of the table of videos: the variable
    [url] of [read_videos_csv]. *)
Definition csv_locator {ucd : UCD} (r : gmap str str) : str :=
  strip (as_str (por (Rate.get r "url") (por (Rate.get r "video_url") (PStr [])))).

(** A cell that is absent or empty. *)
Definition no_cell (r : gmap str str) (k : string) : Prop :=
  r !! u k = None ∨ r !! u k = Some [].

(** What [rate.py] copies of a video into both kinds of rows. *)
Definition fields : Type := str * str * str * Z * Z * Z * str * str.

Definition video_fields (v : Rate.VideoRow) : fields :=
  (Rate.video_id v, Rate.url v, Rate.title v, Rate.view_count v,
   Rate.like_count v, Rate.duration_sec v, Rate.published_at v,
   Rate.channel_title v).

Definition clean_fields (c : Rate.CleanRow) : fields :=
  (Rate.c_video_id c, Rate.c_url c, Rate.c_title c, Rate.c_view_count c,
   Rate.c_like_count c, Rate.c_duration_sec c, Rate.c_published_at c,
   Rate.c_channel_title c).

Definition dropped_fields (d : Rate.DroppedRow) : fields :=
  (Rate.d_video_id d, Rate.d_url d, Rate.d_title d, Rate.d_view_count d,
   Rate.d_like_count d, Rate.d_duration_sec d, Rate.d_published_at d,
   Rate.d_channel_title d).


(** The row that one turn of the loop of [rate.py] appends for a video: a
    clean row or a dropped row. *)
Definition verdict {ucd : UCD} (excluded_ids excluded_urls : gset str)
    (compiled_aliases : list (str * Rate.Pattern)) (v : Rate.VideoRow)
  : Rate.CleanRow + Rate.DroppedRow :=
  if Rate.excluded excluded_ids excluded_urls v then
    inr (Rate.dropped_row v "exception" None)
  else
    let matched := Rate.match_performers_in_title (Rate.title v) compiled_aliases in
    match elements matched with
    | [] => inr (Rate.dropped_row v "no_performer_in_title" None)
    | [performer] => inl (Rate.clean_row performer v)
    | _ =>
      inr (Rate.dropped_row v "multiple_performers_in_title"
             (Some (join (u "; ") (sorted str_leb (elements matched)))))
    end.


Definition lefts {A B} (x : A + B) : list A :=
  match x with inl a => [a] | inr _ => [] end.

Definition rights {A B} (x : A + B) : list B :=
  match x with inl _ => [] | inr b => [b] end.

(** The rules of a list pass one after the other on a video, taking the
    state from [s] to [s']. *)
Inductive all_pass {S : Type} (v : Fetch.Video)
  : list (Fetch.Rule S) → S → S → Prop :=
  | all_pass_nil s : all_pass v [] s s
  | all_pass_cons r rules s s1 s2 reason :
      r v s = ((true, reason), s1) →
      all_pass v rules s1 s2 →
      all_pass v (r :: rules) s s2.

(** The verdict of the rules of [fetch.py] on a video. *)
Definition fetch_verdict {ucd : UCD} (CHANNEL_EXCEPTIONS : gmap str (gset str))
    (v : Fetch.Video) : bool * list str :=
  fst (Fetch.apply_rules v (map Fetch.pure (Fetch.RULES CHANNEL_EXCEPTIONS)) tt).

(** A row of [rejected_videos.csv] without its reason. *)
Definition without_reason (r : Fetch.Row) : Fetch.Row :=
  {| Fetch.r_published_at := Fetch.r_published_at r;
     Fetch.r_channel_title := Fetch.r_channel_title r;
     Fetch.r_channel_id := Fetch.r_channel_id r;
     Fetch.r_title := Fetch.r_title r;
     Fetch.r_duration_sec := Fetch.r_duration_sec r;
     Fetch.r_duration_min := Fetch.r_duration_min r;
     Fetch.r_view_count := Fetch.r_view_count r;
     Fetch.r_like_count := Fetch.r_like_count r;
     Fetch.r_comment_count := Fetch.r_comment_count r;
     Fetch.r_url := Fetch.r_url r;
     Fetch.r_video_id := Fetch.r_video_id r;
     Fetch.r_reject_reason := None |}.

(** A text in the form that [normalize_spaces] gives: its white space is
    single spaces, none at the start ([prev_space] tells that a space may
    not come next) and none at the end. *)
Fixpoint single_spaced {ucd : UCD} (prev_space : bool) (s : str) : bool :=
  match s with
  | [] => true
  | c :: r =>
    if is_space c then (c =? 32)%N && negb prev_space && single_spaced true r
    else single_spaced false r
  end.

Definition ends_in_word {ucd : UCD} (s : str) : bool :=
  match last s with Some c => negb (is_space c) | None => true end.

Definition normalized {ucd : UCD} (s : str) : bool :=
  single_spaced true s && ends_in_word s.

(** [s.rstrip()] by recursion on [s]. *)
Fixpoint rstrip_rec {ucd : UCD} (s : str) : str :=
  match s with
  | [] => []
  | c :: r =>
    match rstrip_rec r with
    | [] => if is_space c then [] else [c]
    | r' => c :: r'
    end
  end.

(** An identifier of a video: eleven characters among the letters, the
    digits, [_] and [-]. *)
Definition is_video_id (g : str) : Prop :=
  length g = 11%nat ∧ forallb Rate.is_id_char g = true.

(** The three texts that may stand before an identifier in a locator. *)
Definition id_prefixes : list str := [u "v="; u "/shorts/"; u "youtu.be/"].

(** A line of a configuration file that is read: after [strip], it is not
    empty and does not start with [#]. *)
Definition effective {ucd : UCD} (raw : str) : bool :=
  match strip raw with
  | [] => false
  | line => negb (startswith (u "#") line)
  end.

(** The cell of the identifier of a row of the table of videos: the variable
    [vid] of [read_videos_csv] before the locator is tried. *)
Definition csv_identifier {ucd : UCD} (r : gmap str str) : str :=
  strip (as_str (por (Rate.get r "video_id") (por (Rate.get r "id") (PStr [])))).

(** The value of a decimal numeral read from the left, [acc] being the value
    of what was read before. *)
Fixpoint uint_value (d : Decimal.uint) (acc : Z) : Z :=
  match d with
  | Decimal.Nil => acc
  | Decimal.D0 l => uint_value l (10 * acc + 0)
  | Decimal.D1 l => uint_value l (10 * acc + 1)
  | Decimal.D2 l => uint_value l (10 * acc + 2)
  | Decimal.D3 l => uint_value l (10 * acc + 3)
  | Decimal.D4 l => uint_value l (10 * acc + 4)
  | Decimal.D5 l => uint_value l (10 * acc + 5)
  | Decimal.D6 l => uint_value l (10 * acc + 6)
  | Decimal.D7 l => uint_value l (10 * acc + 7)
  | Decimal.D8 l => uint_value l (10 * acc + 8)
  | Decimal.D9 l => uint_value l (10 * acc + 9)
  end.

(** A text at which a run of digits stops. *)
Definition no_digit_first {ucd : UCD} (rest : str) : Prop :=
  match rest with [] => True | c :: _ => Rate.digit_value c = None end.

(** The ISO 8601 text of a duration: [PT], then the hours, the minutes and
    the seconds that are given, each a decimal numeral and its letter. *)
Definition iso_part (letter : N) (v : option N) : str :=
  match v with
  | Some n => str_of_Z (Z.of_N n) ++ [letter]
  | None => []
  end.

Definition iso8601 (h m s : option N) : str :=
  u "PT" ++ iso_part 72 h ++ iso_part 77 m ++ iso_part 83 s.

Definition part_value (v : option N) : Z :=
  match v with Some n => Z.of_N n | None => 0 end.

(** A text of white space only. *)
Definition blank {ucd : UCD} (p : str) : Prop :=
  Forall (λ c, is_space c = true) p.






(** * Properties *)

(** ** Sorting *)

Section Sorting.
Context {A : Type} (le : A → A → bool).

Lemma insert_sorted_Permutation x l : insert_sorted le x l ≡ₚ x :: l.
Proof.
  induction l as [|y l IH]; simpl; [done|].
  destruct (le x y); [done|]. rewrite IH. apply Permutation_swap.
Qed.

Lemma sorted_Permutation l : sorted le l ≡ₚ l.
Proof.
  induction l as [|x l IH]; simpl; [done|].
  unfold sorted in *. simpl. rewrite insert_sorted_Permutation. by rewrite IH.
Qed.

End Sorting.

(** ** Alias matching *)

Section AliasFacts.
Context {ucd : UCD}.

Lemma alias_search_from_app alias prev pre t :
  alias_at alias (last (option_list prev ++ pre)) t = true →
  alias_search_from alias prev (pre ++ t) = true.
Proof.
  revert prev. induction pre as [|c pre IH]; intros prev Hat.
  - rewrite app_nil_r in Hat. simpl.
    assert (last (option_list prev) = prev) as E by (by destruct prev).
    rewrite E in Hat. destruct t; simpl; rewrite Hat; done.
  - simpl. apply orb_true_iff. right. apply IH.
    rewrite <- Hat. f_equal. destruct prev; simpl.
    + rewrite !last_cons. by destruct (last pre).
    + done.
Qed.

Lemma alias_search_app alias pre t :
  alias_at alias (last pre) t = true → alias_search alias (pre ++ t) = true.
Proof. intros Hat. by apply alias_search_from_app. Qed.

End AliasFacts.

(** C8. Alias matching respects word boundaries.  With the dictionary line
    [Ivan], the title [Ivanenko] matches no performer, and the title
    [Ivan speaks] matches the performer [Ivan], also in another case and with
    other white space.  In general, the alias [Ivan] does not match at an
    occurrence of [Ivanenko], wherever it stands in a title, and it is found
    in every title that holds [Ivan speaks] at its start or after a character
    that is not a word character.  For every alias, in every script, there
    is no match at a position that follows a word character, nor at a
    position where a word character follows the text of the alias. *)
Theorem alias_boundary {ucd : UCD} :
  let table := snd (Rate.load_performers [u "Ivan"]) in
  table = [(u "Ivan", {| Rate.pat_alias := u "Ivan" |})] ∧
  Rate.match_performers_in_title (u "Ivanenko") table = ∅ ∧
  Rate.match_performers_in_title (u "Ivan speaks") table = {[ u "Ivan" ]} ∧
  Rate.match_performers_in_title (u "  IVAN   speaks ") table = {[ u "Ivan" ]} ∧
  (∀ prev post, alias_at (u "Ivan") prev (u "Ivanenko" ++ post) = false) ∧
  (∀ pre post, lookbehind_ok (last pre) = true →
     alias_search (u "Ivan") (pre ++ u "Ivan speaks" ++ post) = true) ∧
  (∀ alias c t, is_word c = true → alias_at alias (Some c) t = false) ∧
  (∀ alias prev t c rest,
     match_here ieq alias t = Some (c :: rest) → is_word c = true →
     alias_at alias prev t = false).
Proof.
  repeat split.
  - intros prev post. unfold alias_at. destruct (lookbehind_ok prev); reflexivity.
  - intros pre post Hb. apply alias_search_app. unfold alias_at. rewrite Hb.
    reflexivity.
  - intros alias c t Hc. unfold alias_at. simpl. by rewrite Hc.
  - intros alias prev t c rest Hm Hc. unfold alias_at. rewrite Hm. simpl.
    rewrite Hc. apply andb_false_r.
Qed.

Lemma alias_boundary_witness :
  @lookbehind_ok ascii_ucd (last (u "Tonight: ")) = true ∧
  @alias_search ascii_ucd (u "Ivan") (u "Tonight: " ++ u "Ivan speaks" ++ u " again")
  = true.
Proof.
  split; [reflexivity|].
  apply (proj1 (proj2 (proj2 (proj2 (proj2 (proj2 (@alias_boundary ascii_ucd))))))).
  reflexivity.
Defined.

(** ** The loop of [rate.py] over the videos *)

Section RateLoop.
Context {ucd : UCD}.
Variables excluded_ids excluded_urls : gset str.
Variable compiled_aliases : list (str * Rate.Pattern).

Abbreviation step := (Rate.step excluded_ids excluded_urls compiled_aliases).
Abbreviation loop := (Rate.loop excluded_ids excluded_urls compiled_aliases).
Abbreviation verdict_of := (verdict excluded_ids excluded_urls compiled_aliases).
Abbreviation matched v :=
  (Rate.match_performers_in_title (Rate.title v) compiled_aliases).
Abbreviation clean_of v := (lefts (verdict_of v)).
Abbreviation dropped_of v := (rights (verdict_of v)).

Lemma step_verdict st v :
  step st v =
  match verdict_of v with
  | inl c => Rate.rate st (Rate.c_performer c) v
  | inr d => Rate.drop st d
  end.
Proof.
  unfold Rate.step, verdict.
  destruct (Rate.excluded _ _ v); [done|].
  change (size (matched v)) with (length (elements (matched v))).
  destruct (elements (matched v)) as [|p [|q l]]; done.
Qed.

Lemma step_rows st v :
  Rate.clean_rows (step st v) = Rate.clean_rows st ++ clean_of v ∧
  Rate.dropped_rows (step st v) = Rate.dropped_rows st ++ dropped_of v.
Proof.
  rewrite step_verdict.
  destruct (verdict_of v) as [c|d] eqn:E; simpl; rewrite ?app_nil_r; split; try done.
  f_equal. f_equal. unfold verdict in E.
  destruct (Rate.excluded _ _ v); [done|].
  destruct (elements (matched v)) as [|p [|q l]]; by simplify_eq.
Qed.

Lemma foldl_step_rows videos st :
  Rate.clean_rows (foldl step st videos)
  = Rate.clean_rows st ++ flat_map (λ v, clean_of v) videos ∧
  Rate.dropped_rows (foldl step st videos)
  = Rate.dropped_rows st ++ flat_map (λ v, dropped_of v) videos.
Proof.
  revert st. induction videos as [|v videos IH]; intros st; simpl.
  - by rewrite !app_nil_r.
  - destruct (IH (step st v)) as [-> ->].
    destruct (step_rows st v) as [-> ->]. by rewrite <- !app_assoc.
Qed.

Lemma loop_rows videos :
  Rate.clean_rows (loop videos) = flat_map (λ v, clean_of v) videos ∧
  Rate.dropped_rows (loop videos) = flat_map (λ v, dropped_of v) videos.
Proof. apply (foldl_step_rows videos Rate.init). Qed.


Lemma in_clean_rows videos c :
  c ∈ Rate.clean_rows (loop videos) ↔ ∃ v, v ∈ videos ∧ verdict_of v = inl c.
Proof.
  destruct (loop_rows videos) as [-> _].
  rewrite list_elem_of_In, in_flat_map. split.
  - intros (v & Hv & Hc). exists v. rewrite list_elem_of_In. split; [done|].
    destruct (verdict_of v); simpl in Hc; [|done]. destruct Hc as [->|[]]. done.
  - intros (v & Hv & Hc). exists v. rewrite <- list_elem_of_In. split; [done|].
    rewrite Hc. by left.
Qed.

Lemma in_dropped_rows videos d :
  d ∈ Rate.dropped_rows (loop videos) ↔ ∃ v, v ∈ videos ∧ verdict_of v = inr d.
Proof.
  destruct (loop_rows videos) as [_ ->].
  rewrite list_elem_of_In, in_flat_map. split.
  - intros (v & Hv & Hc). exists v. rewrite list_elem_of_In. split; [done|].
    destruct (verdict_of v); simpl in Hc; [done|]. destruct Hc as [->|[]]. done.
  - intros (v & Hv & Hc). exists v. rewrite <- list_elem_of_In. split; [done|].
    rewrite Hc. by left.
Qed.

Lemma verdict_clean_fields v c :
  verdict_of v = inl c → clean_fields c = video_fields v.
Proof.
  unfold verdict. destruct (Rate.excluded _ _ v); [done|].
  destruct (elements (matched v)) as [|p [|q l]]; intros; by simplify_eq.
Qed.

Lemma verdict_dropped_fields v d :
  verdict_of v = inr d → dropped_fields d = video_fields v.
Proof.
  unfold verdict. destruct (Rate.excluded _ _ v); [intros; by simplify_eq|].
  destruct (elements (matched v)) as [|p [|q l]]; intros; by simplify_eq.
Qed.









(** The exception check comes first in a turn of the loop: for an excluded
    video, the turn does not depend on the alias table. *)
Lemma step_excluded st v :
  Rate.excluded excluded_ids excluded_urls v = true →
  ∀ table, Rate.step excluded_ids excluded_urls table st v
           = Rate.drop st (Rate.dropped_row v "exception" None).
Proof. intros Hex table. unfold Rate.step. by rewrite Hex. Qed.

Lemma verdict_excluded v :
  Rate.excluded excluded_ids excluded_urls v = true →
  verdict_of v = inr (Rate.dropped_row v "exception" None).
Proof. intros Hex. unfold verdict. by rewrite Hex. Qed.

Lemma verdict_clean_not_excluded v c :
  verdict_of v = inl c → Rate.excluded excluded_ids excluded_urls v = false.
Proof. unfold verdict. by destruct (Rate.excluded _ _ v). Qed.

Lemma dropped_excluded videos d :
  d ∈ Rate.dropped_rows (loop videos) →
  Rate.d_video_id d ∈ excluded_ids ∨ Rate.d_url d ∈ excluded_urls →
  Rate.d_drop_reason d = u "exception" ∧ Rate.d_matched_performers d = None.
Proof.
  intros (v & _ & Hd)%in_dropped_rows Hex.
  assert (Rate.excluded excluded_ids excluded_urls v = true) as Hv.
  { pose proof (verdict_dropped_fields _ _ Hd) as E.
    unfold dropped_fields, video_fields in E. simplify_eq.
    unfold Rate.excluded. apply orb_true_iff.
    destruct Hex as [Hex|Hex]; [left|right];
      (apply bool_decide_eq_true; congruence). }
  rewrite (verdict_excluded _ Hv) in Hd. by simplify_eq.
Qed.

Lemma clean_not_excluded videos c :
  c ∈ Rate.clean_rows (loop videos) →
  (Rate.c_video_id c ∉ excluded_ids) ∧ (Rate.c_url c ∉ excluded_urls).
Proof.
  intros (v & _ & Hc)%in_clean_rows.
  pose proof (verdict_clean_not_excluded _ _ Hc) as Hex.
  pose proof (verdict_clean_fields _ _ Hc) as E.
  unfold clean_fields, video_fields in E. simplify_eq.
  unfold Rate.excluded in Hex. apply orb_false_iff in Hex as [Hid Hurl].
  apply bool_decide_eq_false in Hid, Hurl. split; congruence.
Qed.


End RateLoop.

(** The loop on three videos: one for [Ivan], one whose title holds only
    [Ivanenko], one with two performers. *)
Example loop_on_examples :
  let st := Rate.loop (ucd := ascii_ucd) ∅ ∅ ex_table [ex_ivan; ex_nobody; ex_duo] in
  Rate.clean_rows st = [Rate.clean_row (u "Ivan") ex_ivan] ∧
  Rate.dropped_rows st
  = [Rate.dropped_row ex_nobody "no_performer_in_title" None;
     Rate.dropped_row ex_duo "multiple_performers_in_title"
       (Some (u "Ivan; Olena Petrenko"))] ∧
  Rate.per_views st = [(u "Ivan", [1000%Z])] ∧
  Rate.global_views st = 1000%Z ∧ Rate.global_likes st = 10%Z.
Proof. repeat split; vm_compute; reflexivity. Qed.




(** ** The rule engine of [fetch.py] *)

Section RuleEngine.
Context {S : Type}.
Implicit Types (v : Fetch.Video) (rules pre post : list (Fetch.Rule S)) (s : S).

Lemma apply_rules_all_pass v rules s s' :
  all_pass v rules s s' → Fetch.apply_rules v rules s = ((true, []), s').
Proof.
  induction 1 as [|r rules s s1 s2 reason Hr _ IH]; simpl; [done|].
  by rewrite Hr.
Qed.

Lemma apply_rules_first_failure v pre r post s s1 s2 reason :
  all_pass v pre s s1 →
  r v s1 = ((false, reason), s2) →
  Fetch.apply_rules v (pre ++ r :: post) s = ((false, [reason]), s2).
Proof.
  induction 1 as [|r' rules s s1 s1' reason' Hr' _ IH]; simpl; intros Hr.
  - by rewrite Hr.
  - rewrite Hr'. by apply IH.
Qed.

(** C2. The rule engine stops at the first rule that fails.  On every video,
    list of rules and state of the interpreter, either all the rules pass
    one after the other and the result is accepted with the empty list of
    reasons, or the list is a prefix of rules that pass, a rule [r] that
    fails and a rest, and the result is rejected with the one reason of [r]
    in the state that the call of [r] leaves: the result and the state are
    the same whatever the rest is, so that no rule after [r] is called. *)
Theorem apply_rules_first_failure_only v rules s :
  (∃ s', all_pass v rules s s' ∧
         Fetch.apply_rules v rules s = ((true, []), s')) ∨
  (∃ pre r post s1 s2 reason,
      rules = pre ++ r :: post ∧
      all_pass v pre s s1 ∧
      r v s1 = ((false, reason), s2) ∧
      ∀ post', Fetch.apply_rules v (pre ++ r :: post') s
               = ((false, [reason]), s2)).
Proof.
  revert s. induction rules as [|r rules IH]; intros s.
  - left. exists s. split; [constructor|done].
  - destruct (r v s) as [[ok reason] s1] eqn:Hr. destruct ok.
    + destruct (IH s1) as [(s' & Hp & Ha)|(pre & r' & post & s2 & s3 & reason' &
                                           -> & Hp & Hr' & Ha)].
      * left. exists s'. split; [by econstructor|]. simpl. by rewrite Hr.
      * right. exists (r :: pre), r', post, s2, s3, reason'.
        split; [done|]. split; [by econstructor|]. split; [done|].
        intros post'. simpl. rewrite Hr. apply Ha.
    + right. exists [], r, rules, s, s1, reason.
      split; [done|]. split; [constructor|]. split; [done|].
      intros post'. simpl. by rewrite Hr.
Qed.

End RuleEngine.

(** A video that was published before the cutoff, is too short and has no
    keyword in its title is rejected with the first of the three reasons,
    after one call. *)
Example rules_stop_at_first_failure :
  fst (Fetch.rule_after_cutoff ex_old) = false ∧
  fst (Fetch.rule_min_duration ex_old) = false ∧
  fst (Fetch.rule_title_has_standup (ucd := ascii_ucd) ∅ ex_old) = false ∧
  Fetch.apply_rules ex_old (map counting (Fetch.RULES (ucd := ascii_ucd) ∅)) 0%nat
  = ((false, [u "before_2022_02_24"]), 1%nat) ∧
  Fetch.apply_rules ex_recent (map counting (Fetch.RULES (ucd := ascii_ucd) ∅)) 0%nat
  = ((true, []), 9%nat).
Proof. repeat split; vm_compute; reflexivity. Qed.

(** ** The loop of [fetch.py] over the videos *)

Section FetchLoop.
Context {ucd : UCD}.
Variable CHANNEL_EXCEPTIONS : gmap str (gset str).

Abbreviation fstep := (Fetch.step CHANNEL_EXCEPTIONS).
Abbreviation ok v := (fst (fetch_verdict CHANNEL_EXCEPTIONS v)).
Abbreviation rejected_row v :=
  (Fetch.with_reason (Fetch.row v)
     (join (u ";") (snd (fetch_verdict CHANNEL_EXCEPTIONS v)))).

Lemma fetch_step_rows st v :
  fstep st v =
  (fst st ++ (if ok v then [Fetch.row v] else []),
   snd st ++ (if ok v then [] else [rejected_row v])).
Proof.
  destruct st as [acc rej]. unfold Fetch.step, fetch_verdict.
  destruct (Fetch.apply_rules v (map Fetch.pure (Fetch.RULES CHANNEL_EXCEPTIONS)) tt)
    as [[b reasons] []].
  cbn [fst snd]. destruct b; by rewrite app_nil_r.
Qed.

Lemma fetch_foldl_rows videos st :
  foldl fstep st videos =
  (fst st ++ map Fetch.row (List.filter (λ v, ok v) videos),
   snd st ++ map (λ v, rejected_row v) (List.filter (λ v, negb (ok v)) videos)).
Proof.
  revert st. induction videos as [|v videos IH]; intros st; simpl.
  - rewrite !app_nil_r. by destruct st.
  - rewrite IH, fetch_step_rows. simpl.
    destruct (ok v); simpl; by rewrite <- !app_assoc.
Qed.

Lemma fetch_loop_concat channels st :
  foldl (λ st videos, foldl fstep st videos) st channels
  = foldl fstep st (concat channels).
Proof.
  revert st. induction channels as [|c channels IH]; intros st; simpl; [done|].
  by rewrite IH, foldl_app.
Qed.

Lemma fetch_loop_rows channels :
  Fetch.loop CHANNEL_EXCEPTIONS channels =
  (map Fetch.row (List.filter (λ v, ok v) (concat channels)),
   map (λ v, rejected_row v) (List.filter (λ v, negb (ok v)) (concat channels))).
Proof.
  unfold Fetch.loop. by rewrite fetch_loop_concat, fetch_foldl_rows.
Qed.

Lemma fetch_main_rows channels :
  Fetch.accepted (Fetch.main CHANNEL_EXCEPTIONS channels)
  ≡ₚ map Fetch.row (List.filter (λ v, ok v) (concat channels)) ∧
  Fetch.rejected (Fetch.main CHANNEL_EXCEPTIONS channels)
  = map (λ v, rejected_row v) (List.filter (λ v, negb (ok v)) (concat channels)).
Proof.
  unfold Fetch.main. rewrite fetch_loop_rows. simpl. split; [|done].
  apply sorted_Permutation.
Qed.

Lemma without_reason_rejected_row v :
  without_reason (rejected_row v) = Fetch.row v.
Proof. done. Qed.

End FetchLoop.

(** ** The partition law *)




(** ** The score *)

Section Score.
Local Open Scope R_scope.

Lemma log1p_monotone x y : 0 <= x → x <= y → Rate.log1p x <= Rate.log1p y.
Proof.
  intros Hx Hxy. unfold Rate.log1p.
  destruct (Req_dec x y) as [->|Hne]; [lra|].
  left. apply ln_increasing; lra.
Qed.

Lemma log1p_max_Z a b : (a ≤ b)%Z →
  Rate.log1p (IZR (Z.max 0 a)) <= Rate.log1p (IZR (Z.max 0 b)).
Proof.
  intros Hab. apply log1p_monotone.
  - apply IZR_le. lia.
  - apply IZR_le. lia.
Qed.

Lemma log1p_max_R a b : a <= b →
  Rate.log1p (Rmax 0 a) <= Rate.log1p (Rmax 0 b).
Proof.
  intros Hab. apply log1p_monotone.
  - apply Rmax_l.
  - unfold Rmax. repeat destruct (Rle_dec _ _); lra.
Qed.

Lemma compute_base_score_le tv pv vc tm tv' pv' vc' tm' :
  (tv ≤ tv')%Z → (pv ≤ pv')%Z → (vc ≤ vc')%Z → tm <= tm' →
  Rate.compute_base_score tv pv vc tm <= Rate.compute_base_score tv' pv' vc' tm'.
Proof.
  intros Ht Hp Hv Hm. unfold Rate.compute_base_score.
  pose proof (log1p_max_Z _ _ Ht). pose proof (log1p_max_Z _ _ Hp).
  pose proof (log1p_max_Z _ _ Hv). pose proof (log1p_max_R _ _ Hm).
  unfold Rate.W_TOTAL, Rate.W_PEAK, Rate.W_COUNT, Rate.W_MINUTES. cbv zeta. nra.
Qed.




(** C9. The base score is monotone in each argument.  On arguments that are
    not negative, a greater total of views, a greater peak of views, a
    greater count of videos or a greater total of minutes, the three other
    arguments being the same, gives a score that is not smaller. *)
Theorem base_score_monotone total_views peak_views video_count total_minutes :
  (0 ≤ total_views)%Z → (0 ≤ peak_views)%Z → (0 ≤ video_count)%Z →
  0 <= total_minutes →
  let score := Rate.compute_base_score in
  (∀ total_views', (total_views < total_views')%Z →
     score total_views peak_views video_count total_minutes
     <= score total_views' peak_views video_count total_minutes) ∧
  (∀ peak_views', (peak_views < peak_views')%Z →
     score total_views peak_views video_count total_minutes
     <= score total_views peak_views' video_count total_minutes) ∧
  (∀ video_count', (video_count < video_count')%Z →
     score total_views peak_views video_count total_minutes
     <= score total_views peak_views video_count' total_minutes) ∧
  (∀ total_minutes', total_minutes < total_minutes' →
     score total_views peak_views video_count total_minutes
     <= score total_views peak_views video_count total_minutes').
Proof.
  intros _ _ _ _ score. subst score.
  repeat split; intros x Hx; apply compute_base_score_le; lia || lra.
Qed.

Lemma base_score_monotone_witness :
  Rate.compute_base_score 500000 100000 10 300
  <= Rate.compute_base_score 1000000 100000 10 300.
Proof.
  apply (base_score_monotone 500000 100000 10 300); [lia | lia | lia | lra | lia].
Defined.

End Score.


(** ** The smoothed like rate *)

Section Smoothing.
Local Open Scope R_scope.



(** In binary64, the two roundings can also leave the smoothed like rate of
    a performer without views and without likes one unit in the last place
    away from the prior mean: here with 3338945 likes for 3905443 views in
    the whole table. *)
Example like_rate_smooth_rounds_in_binary64 :
  PrimFloat.eqb
    (Binary64.like_rate_smooth 0 0 Rate.SMOOTH_M_VIEWS
       (Binary64.prior 3338945 3905443))
    (Binary64.prior 3338945 3905443)
  = false.
Proof. vm_compute. reflexivity. Qed.



End Smoothing.

(** ** The ranking *)

Section SortByKey.
Context {A : Type} (key : A → R).
Local Open Scope R_scope.

(** The order of [l.sort(key=key, reverse=True)]. *)
Abbreviation before := (λ a b : A, bool_decide (key b <= key a)).
Abbreviation same k := (λ a : A, bool_decide (key a = k)).





(** A list is determined by what the sort guarantees: two lists that are
    descending in the key and hold, for every key, the same elements of that
    key in the same order are equal.  So every stable sort gives the list
    that [sorted] gives. *)
Lemma stable_desc_unique l1 l2 :
  StronglySorted (λ a b, key b <= key a) l1 →
  StronglySorted (λ a b, key b <= key a) l2 →
  (∀ k, List.filter (same k) l1 = List.filter (same k) l2) →
  l1 = l2.
Proof.
  intros Hs1. revert l2. induction Hs1 as [|x l1 Hs1 IH Hx]; intros l2 Hs2 Hf.
  - destruct l2 as [|y l2]; [done|].
    specialize (Hf (key y)). simpl in Hf. by rewrite bool_decide_eq_true_2 in Hf.
  - destruct Hs2 as [|y l2 Hs2 Hy].
    { specialize (Hf (key x)). simpl in Hf.
      by rewrite bool_decide_eq_true_2 in Hf. }
    assert (key x = key y) as Hk.
    { apply Rle_antisym.
      - pose proof (Hf (key x)) as Hfx. simpl in Hfx.
        rewrite (bool_decide_eq_true_2 (key x = key x)) in Hfx by done.
        destruct (bool_decide_reflect (key y = key x)) as [->|_]; [lra|].
        assert (In x (List.filter (same (key x)) l2)) as Hin
          by (rewrite <- Hfx; by left).
        apply filter_In in Hin as [Hin _].
        rewrite Forall_forall in Hy. apply Hy. by apply list_elem_of_In.
      - pose proof (Hf (key y)) as Hfy. simpl in Hfy.
        rewrite (bool_decide_eq_true_2 (key y = key y)) in Hfy by done.
        destruct (bool_decide_reflect (key x = key y)) as [->|_]; [lra|].
        assert (In y (List.filter (same (key y)) l1)) as Hin
          by (rewrite Hfy; by left).
        apply filter_In in Hin as [Hin _].
        rewrite Forall_forall in Hx. apply Hx. by apply list_elem_of_In. }
    assert (x = y) as ->.
    { pose proof (Hf (key x)) as Hfx. simpl in Hfx.
      rewrite (bool_decide_eq_true_2 (key x = key x)) in Hfx by done.
      rewrite (bool_decide_eq_true_2 (key y = key x)) in Hfx by done.
      by injection Hfx. }
    f_equal. apply IH; [done|]. intros k. specialize (Hf k). simpl in Hf.
    destruct (bool_decide (key y = k)); [by injection Hf|done].
Qed.

End SortByKey.

Section Ranking.
Local Open Scope R_scope.
Implicit Types (rows : list Rate.RatingRow) (start : Z).









End Ranking.



(** ** The reasons of the rule engine *)

Section RuleReasons.
Context {ucd : UCD}.
Variable CHANNEL_EXCEPTIONS : gmap str (gset str).

Lemma apply_rules_pure_cases (P : str → Prop) (rs : list (Fetch.Video → bool * str)) v :
  Forall (λ r, fst (r v) = false → P (snd (r v))) rs →
  fst (Fetch.apply_rules v (map Fetch.pure rs) tt) = (true, []) ∨
  ∃ reason, fst (Fetch.apply_rules v (map Fetch.pure rs) tt) = (false, [reason])
            ∧ P reason.
Proof.
  induction 1 as [|r rs Hr _ IH]; simpl; [by left|].
  unfold Fetch.pure at 1. destruct (r v) as [[] reason]; [done|].
  right. exists reason. split; [done|]. by apply Hr.
Qed.

Ltac differs_at_head :=
  let E := fresh in
  intros E; apply (f_equal (hd 0%N)) in E; vm_compute in E; discriminate E.

Lemma RULES_reasons v :
  Forall (λ r : Fetch.Video → bool * str,
            fst (r v) = false → snd (r v) ≠ u "exception")
         (Fetch.RULES CHANNEL_EXCEPTIONS).
Proof.
  repeat apply Forall_cons_2; [..|apply Forall_nil_2].
  - unfold Fetch.rule_after_cutoff. destruct (_ <=? _)%Z; [done|].
    intros _. simpl. differs_at_head.
  - unfold Fetch.rule_min_duration. destruct (_ <? _)%Z; [done|].
    intros _. simpl. differs_at_head.
  - unfold Fetch.rule_max_duration. destruct (_ <? _)%Z; [done|].
    intros _. simpl. differs_at_head.
  - unfold Fetch.rule_title_has_standup. destruct (_ && _); [done|].
    destruct (existsb _ _); [done|]. intros _. simpl. differs_at_head.
  - unfold Fetch.rule_title_not_podcast. destruct (Fetch.re_search _ _); [|done].
    intros _. simpl. differs_at_head.
  - unfold Fetch.rule_title_not_improv. destruct (Fetch.re_search _ _); [|done].
    intros _. simpl. differs_at_head.
  - unfold Fetch.rule_title_not_rozgony. destruct (Fetch.re_search _ _); [|done].
    intros _. simpl. differs_at_head.
  - unfold Fetch.rule_title_not_hvylyna. destruct (Fetch.re_search _ _); [|done].
    intros _. simpl. differs_at_head.
  - unfold Fetch.rule_no_banned_phrases.
    destruct (List.filter _ _) as [|phrase rest]; [done|].
    intros _. simpl. differs_at_head.
Qed.

(** The verdict of the rules is accepted without a reason, or rejected with
    one reason, which is never [exception]. *)
Lemma fetch_verdict_cases v :
  fetch_verdict CHANNEL_EXCEPTIONS v = (true, []) ∨
  ∃ reason, fetch_verdict CHANNEL_EXCEPTIONS v = (false, [reason])
            ∧ reason ≠ u "exception".
Proof. apply apply_rules_pure_cases, RULES_reasons. Qed.

End RuleReasons.

(** ** The exception filter in the pipeline *)

(** C7, as stated, fails: the pipeline runs the rule engine of [fetch.py]
    before the exception check of [rate.py].  A video whose identifier is
    excluded and that was published before the cutoff is rejected by the
    rule engine with the reason [before_2022_02_24]; it never reaches the
    exception check and has no row with the reason [exception]. *)
Lemma exception_gate_first_counterexample :
  let out :=
    Pipeline.main (ucd := ascii_ucd) (builtins := integer_cells) false ∅
      [[ex_old]] (Some ex_exceptions) ex_performers in
  Fetch.video_id ex_old
    ∈ fst (Rate.load_exceptions (ucd := ascii_ucd) (Some ex_exceptions)) ∧
  map (λ r, (Fetch.r_video_id r, Fetch.r_reject_reason r))
      (Fetch.rejected (Pipeline.fetched out))
  = [(Fetch.video_id ex_old, Some (u "before_2022_02_24"))] ∧
  Fetch.accepted (Pipeline.fetched out) = [] ∧
  Rate.out_dropped (Pipeline.rated out) = [] ∧
  Rate.out_clean (Pipeline.rated out) = [].
Proof.
  split; [|split; [|split; [|split]]].
  - refine (proj1 (bool_decide_eq_true (Fetch.video_id ex_old ∈ _)) _).
    vm_compute. reflexivity.
  - vm_compute. reflexivity.
  - vm_compute. reflexivity.
  - vm_compute. reflexivity.
  - vm_compute. reflexivity.
Qed.

(** C7, amended.  The pipeline runs the rule engine first: the rows that the
    rule engine accepts are those of the videos on which all the rules pass,
    the rows that it rejects carry the reason of the first rule that fails,
    which is never [exception], and the exclusion sets play no part in it.
    The rating reads the accepted rows, and there the exception check is the
    first gate: a dropped row whose identifier or locator is excluded has
    the reason [exception] and no matched performers, no clean row has an
    excluded identifier or locator, and the turn of the loop on an excluded
    video does not depend on the alias table, so that no matching runs on
    it. *)
Theorem exception_gate_of_rating {ucd : UCD} {builtins : Builtins}
    enable CHANNEL_EXCEPTIONS channels exceptions performers :
  let out := Pipeline.main enable CHANNEL_EXCEPTIONS channels exceptions performers in
  let excluded_ids := fst (Rate.load_exceptions exceptions) in
  let excluded_urls := snd (Rate.load_exceptions exceptions) in
  Forall (λ r, ∃ v, v ∈ concat channels ∧ r = Fetch.row v ∧
                    fetch_verdict CHANNEL_EXCEPTIONS v = (true, []))
         (Fetch.accepted (Pipeline.fetched out)) ∧
  Forall (λ r, ∃ v reason,
                 v ∈ concat channels ∧
                 fetch_verdict CHANNEL_EXCEPTIONS v = (false, [reason]) ∧
                 reason ≠ u "exception" ∧
                 r = Fetch.with_reason (Fetch.row v) reason)
         (Fetch.rejected (Pipeline.fetched out)) ∧
  Pipeline.rated out
  = Rate.main_with enable exceptions performers
      (map Pipeline.filtered_csv_row (Fetch.accepted (Pipeline.fetched out))) ∧
  Forall (λ d, Rate.d_video_id d ∈ excluded_ids ∨ Rate.d_url d ∈ excluded_urls →
               Rate.d_drop_reason d = u "exception" ∧
               Rate.d_matched_performers d = None)
         (Rate.out_dropped (Pipeline.rated out)) ∧
  Forall (λ c, (Rate.c_video_id c ∉ excluded_ids) ∧ (Rate.c_url c ∉ excluded_urls))
         (Rate.out_clean (Pipeline.rated out)) ∧
  (∀ st v, Rate.excluded excluded_ids excluded_urls v = true →
     ∀ table, Rate.step excluded_ids excluded_urls table st v
              = Rate.drop st (Rate.dropped_row v "exception" None)).
Proof.
  intros out ids urls.
  destruct (fetch_main_rows CHANNEL_EXCEPTIONS channels) as [Ha Hr].
  split; [|split; [|split; [|split; [|split]]]].
  - simpl. rewrite Ha. apply Forall_map, Forall_forall.
    intros v [Hv Hok]%list_elem_of_In%filter_In. exists v.
    split; [by apply list_elem_of_In|]. split; [done|].
    destruct (fetch_verdict_cases CHANNEL_EXCEPTIONS v) as [E|(reason & E & _)];
      [done|]. rewrite E in Hok. done.
  - simpl. rewrite Hr. apply Forall_map, Forall_forall.
    intros v [Hv Hok]%list_elem_of_In%filter_In.
    destruct (fetch_verdict_cases CHANNEL_EXCEPTIONS v) as [E|(reason & E & Hne)].
    + rewrite E in Hok. done.
    + exists v, reason. split; [by apply list_elem_of_In|].
      split; [done|]. split; [done|]. simpl. by rewrite E.
  - done.
  - subst out. unfold Pipeline.main, Rate.main_with. subst ids urls.
    destruct (Rate.load_exceptions exceptions) as [ids urls]. simpl.
    apply Forall_forall. intros d Hd Hex. by eapply dropped_excluded.
  - subst out. unfold Pipeline.main, Rate.main_with. subst ids urls.
    destruct (Rate.load_exceptions exceptions) as [ids urls]. simpl.
    apply Forall_forall. intros c Hc. by eapply clean_not_excluded.
  - intros st v Hex table. by apply step_excluded.
Qed.

Lemma exception_gate_of_rating_witness :
  Rate.step (ucd := ascii_ucd)
    (fst (Rate.load_exceptions (ucd := ascii_ucd) (Some ex_exceptions)))
    (snd (Rate.load_exceptions (ucd := ascii_ucd) (Some ex_exceptions)))
    ex_table Rate.init (ex_video "fffffffffff" "Ivan: stand up" 1000 10)
  = Rate.drop Rate.init
      (Rate.dropped_row (ex_video "fffffffffff" "Ivan: stand up" 1000 10)
         "exception" None).
Proof.
  apply (proj2 (proj2 (proj2 (proj2 (proj2
    (exception_gate_of_rating (ucd := ascii_ucd) (builtins := integer_cells)
       false ∅ [[ex_recent]] (Some ex_exceptions) ex_performers)))))).
  vm_compute. reflexivity.
Defined.

(** ** Rows of the table of videos without an identifier *)

Section ReadVideos.
Context {ucd : UCD} {builtins : Builtins}.

Lemma no_cell_por r k x : no_cell r k → por (Rate.get r k) x = x.
Proof. unfold por, Rate.get. by intros [-> | ->]. Qed.

Lemma csv_locator_url r :
  no_cell r "video_url" → csv_locator r = strip (as_str (Rate.get r "url")).
Proof.
  intros Hv. unfold csv_locator. rewrite (no_cell_por r "video_url" _ Hv).
  unfold Rate.get. destruct (r !! u "url") as [[|c s]|]; reflexivity.
Qed.

(** C10. A row of the table of videos whose cells [video_id] and [id] are
    absent or empty and from whose locator no identifier can be extracted is
    left out by [read_videos_csv]: the videos read are those read without
    the row, and so are the three outputs of [main], where the row has no
    clean row, no dropped row and no reason.  The locator is the cell [url],
    or the cell [video_url] when the cell [url] is absent or empty; it is
    the cell [url] in a table without a column [video_url], as is the table
    that [fetch.py] writes. *)
Theorem row_without_identifier_omitted (r : gmap str str) :
  no_cell r "video_id" → no_cell r "id" →
  Rate.extract_video_id (csv_locator r) = None →
  Rate.read_row r = None ∧
  (∀ pre post,
     Rate.read_videos_csv (pre ++ r :: post) = Rate.read_videos_csv (pre ++ post)) ∧
  (∀ enable exceptions performers pre post,
     Rate.main_with enable exceptions performers (pre ++ r :: post)
     = Rate.main_with enable exceptions performers (pre ++ post)) ∧
  (no_cell r "video_url" → csv_locator r = strip (as_str (Rate.get r "url"))).
Proof.
  intros Hvid Hid Hextract.
  assert (Rate.read_row r = None) as Hrow.
  { unfold Rate.read_row. cbv zeta.
    rewrite (no_cell_por r "video_id" _ Hvid), (no_cell_por r "id" _ Hid).
    change (strip (as_str (PStr []))) with (@nil N).
    unfold csv_locator in Hextract. rewrite Hextract. done. }
  assert (∀ pre post,
            Rate.read_videos_csv (pre ++ r :: post)
            = Rate.read_videos_csv (pre ++ post)) as Hread.
  { intros pre post. unfold Rate.read_videos_csv.
    rewrite !omap_app. simpl. by rewrite Hrow. }
  split; [done|]. split; [done|]. split; [|apply csv_locator_url].
  intros enable exceptions performers pre post.
  unfold Rate.main_with. by rewrite Hread.
Qed.

End ReadVideos.

Lemma row_without_identifier_omitted_witness :
  let r : gmap str str :=
    list_to_map [(u "url", u "https://example.org/watch/ivan");
                 (u "video_id", []); (u "title", u "Ivan speaks");
                 (u "view_count", u "1000")] in
  Rate.read_row (ucd := ascii_ucd) (builtins := integer_cells) r = None.
Proof.
  intros r.
  refine (proj1 (row_without_identifier_omitted (ucd := ascii_ucd)
                   (builtins := integer_cells) r _ _ _)).
  - right. vm_compute. reflexivity.
  - left. vm_compute. reflexivity.
  - vm_compute. reflexivity.
Defined.

(** * Further properties *)

(** ** White space *)

Section Spaces.
Context {ucd : UCD}.

Lemma lstrip_snoc l c :
  lstrip (l ++ [c])
  = match lstrip l with
    | [] => if is_space c then [] else [c]
    | l' => l' ++ [c]
    end.
Proof.
  induction l as [|x l IH]; simpl; [done|].
  destruct (is_space x); [done|]. done.
Qed.

Lemma rstrip_rstrip_rec s : rstrip s = rstrip_rec s.
Proof.
  unfold rstrip. induction s as [|c r IH]; [done|].
  simpl. rewrite lstrip_snoc, <- IH.
  destruct (lstrip (rev r)) as [|x l] eqn:E; simpl.
  - by destruct (is_space c).
  - rewrite rev_app_distr. simpl. by destruct (rev l ++ [x]) eqn:E'; [destruct (rev l)|].
Qed.

Lemma strip_rec s : strip s = rstrip_rec (lstrip s).
Proof. apply rstrip_rstrip_rec. Qed.

Lemma single_spaced_weaken b s :
  single_spaced b s = true → single_spaced false s = true.
Proof.
  destruct s as [|c r]; [done|]. simpl. destruct (is_space c); [|done].
  destruct b; simpl; [|done]. by rewrite andb_false_r.
Qed.

Lemma single_spaced_sub_spaces b s : single_spaced b (sub_spaces b s) = true.
Proof.
  revert b. induction s as [|c r IH]; intros b; [done|]. simpl.
  destruct (is_space c) eqn:Ec.
  - destruct b; [apply IH|]. simpl. apply IH.
  - simpl. rewrite Ec. apply IH.
Qed.

Lemma single_spaced_lstrip b s :
  single_spaced b s = true → single_spaced true (lstrip s) = true.
Proof.
  revert b. induction s as [|c r IH]; intros b; [done|]. simpl.
  destruct (is_space c) eqn:Ec.
  - intros [_ Hr]%andb_true_iff. by apply (IH true).
  - intros Hr. simpl. by rewrite Ec.
Qed.

Lemma single_spaced_rstrip_rec b s :
  single_spaced b s = true → single_spaced b (rstrip_rec s) = true.
Proof.
  revert b. induction s as [|c r IH]; intros b; [done|]. simpl.
  destruct (is_space c) eqn:Ec.
  - intros [Hc Hr]%andb_true_iff. apply IH in Hr.
    destruct (rstrip_rec r) as [|x l]; [done|].
    simpl. rewrite Ec, Hc. exact Hr.
  - intros Hr. apply IH in Hr.
    destruct (rstrip_rec r) as [|x l]; simpl; by rewrite Ec.
Qed.

Lemma ends_in_word_rstrip_rec s : ends_in_word (rstrip_rec s) = true.
Proof.
  unfold ends_in_word. induction s as [|c r IH]; [done|]. simpl.
  destruct (rstrip_rec r) as [|x l] eqn:E.
  - destruct (is_space c) eqn:Ec; simpl; [done|]. by rewrite Ec.
  - rewrite last_cons.
    destruct (last (x :: l)) eqn:El; [done|]. by apply last_None in El.
Qed.

Lemma sub_spaces_single_spaced b s :
  single_spaced b s = true → sub_spaces b s = s.
Proof.
  revert b. induction s as [|c r IH]; intros b; [done|]. simpl.
  destruct (is_space c) eqn:Ec.
  - intros [[Hc Hb]%andb_true_iff Hr]%andb_true_iff.
    apply N.eqb_eq in Hc as ->. apply negb_true_iff in Hb as ->.
    by rewrite (IH true).
  - intros Hr. by rewrite (IH false).
Qed.

Lemma lstrip_single_spaced s : single_spaced true s = true → lstrip s = s.
Proof.
  destruct s as [|c r]; [done|]. simpl. destruct (is_space c); [|done].
  by rewrite andb_false_r.
Qed.

Lemma rstrip_rec_ends_in_word s : ends_in_word s = true → rstrip_rec s = s.
Proof.
  unfold ends_in_word. induction s as [|c r IH]; [done|]. simpl.
  destruct r as [|x l].
  - simpl. by intros ->%negb_true_iff.
  - rewrite last_cons. intros Hl.
    destruct (last (x :: l)) eqn:El; [|by apply last_None in El].
    by rewrite IH.
Qed.

Lemma words_sub_spaces b s :
  List.filter (λ c, negb (is_space c)) (sub_spaces b s)
  = List.filter (λ c, negb (is_space c)) s.
Proof.
  revert b. induction s as [|c r IH]; intros b; [done|]. simpl.
  destruct (is_space c) eqn:Ec; simpl.
  - destruct b; [apply IH|]. simpl. apply IH.
  - rewrite Ec. simpl. by rewrite IH.
Qed.

Lemma words_lstrip s :
  List.filter (λ c, negb (is_space c)) (lstrip s)
  = List.filter (λ c, negb (is_space c)) s.
Proof.
  induction s as [|c r IH]; [done|]. simpl.
  destruct (is_space c) eqn:Ec; simpl; [done|]. by rewrite Ec.
Qed.

Lemma words_rstrip_rec s :
  List.filter (λ c, negb (is_space c)) (rstrip_rec s)
  = List.filter (λ c, negb (is_space c)) s.
Proof.
  induction s as [|c r IH]; [done|]. simpl. rewrite <- IH.
  destruct (rstrip_rec r) as [|x l]; [|done].
  destruct (is_space c) eqn:Ec; simpl; by rewrite ?Ec.
Qed.

Lemma normalized_normalize_spaces s :
  normalized (Rate.normalize_spaces s) = true.
Proof.
  unfold normalized, Rate.normalize_spaces. rewrite strip_rec.
  rewrite ends_in_word_rstrip_rec, andb_true_r.
  apply single_spaced_rstrip_rec.
  apply (single_spaced_lstrip false), single_spaced_sub_spaces.
Qed.

Lemma normalize_spaces_normalized s :
  normalized s = true → Rate.normalize_spaces s = s.
Proof.
  unfold normalized. intros [Hs He]%andb_true_iff.
  unfold Rate.normalize_spaces.
  rewrite (sub_spaces_single_spaced false) by by eapply single_spaced_weaken.
  rewrite strip_rec, lstrip_single_spaced by done.
  by apply rstrip_rec_ends_in_word.
Qed.

Lemma lstrip_head_word c r : is_space c = false → lstrip (c :: r) = c :: r.
Proof. simpl. by intros ->. Qed.

Lemma rstrip_rec_app a b :
  a ≠ [] → ends_in_word a = true → rstrip_rec (a ++ b) = a ++ rstrip_rec b.
Proof.
  induction a as [|c a IH]; [done|]. intros _ He. destruct a as [|x l].
  - simpl. unfold ends_in_word in He. simpl in He.
    apply negb_true_iff in He. rewrite He. by destruct (rstrip_rec b).
  - assert (ends_in_word (x :: l) = true) as He'.
    { unfold ends_in_word in *. rewrite last_cons in He.
      destruct (last (x :: l)) eqn:El; [done|]. by apply last_None in El. }
    change ((c :: x :: l) ++ b) with (c :: ((x :: l) ++ b)).
    cbn [rstrip_rec]. rewrite IH by done. done.
Qed.

Lemma ends_in_word_app a b :
  b ≠ [] → ends_in_word b = true → ends_in_word (a ++ b) = true.
Proof.
  intros Hb He. unfold ends_in_word in *. rewrite last_app.
  destruct (last b) eqn:El; [done|]. by apply last_None in El.
Qed.

Lemma lstrip_blank p s : blank p → lstrip (p ++ s) = lstrip s.
Proof. induction 1 as [|c p Hc _ IH]; [done|]. simpl. by rewrite Hc. Qed.

Lemma rstrip_rec_blank q : blank q → rstrip_rec q = [].
Proof. induction 1 as [|c q Hc _ IH]; [done|]. simpl. by rewrite IH, Hc. Qed.

(** White space is removed on both sides, and a run of white space between
    two words becomes one space. *)
Lemma sub_spaces_true_blank ws r :
  blank ws → sub_spaces true (ws ++ r) = sub_spaces true r.
Proof. induction 1 as [|c ws Hc _ IH]; [done|]. simpl. by rewrite Hc. Qed.

Lemma sub_spaces_false_blank ws r :
  blank ws → ws ≠ [] → sub_spaces false (ws ++ r) = 32%N :: sub_spaces true r.
Proof.
  intros Hws Hne. destruct Hws as [|c ws Hc Hws]; [done|]. simpl.
  by rewrite Hc, sub_spaces_true_blank.
Qed.

Lemma lstrip_sub_spaces_true s :
  lstrip (sub_spaces true s) = lstrip (sub_spaces false s).
Proof. destruct s as [|c r]; [done|]. simpl. by destruct (is_space c). Qed.

Lemma blank_sub_spaces b ws : blank ws → blank (sub_spaces b ws).
Proof.
  intros Hws. revert b. induction Hws as [|c ws Hc _ IH]; intros b; [constructor|].
  simpl. rewrite Hc. destruct b; [apply IH|]. constructor; [done|apply IH].
Qed.

Lemma sub_spaces_app_blank b t ws :
  blank ws → ∃ z, blank z ∧ sub_spaces b (t ++ ws) = sub_spaces b t ++ z.
Proof.
  intros Hws. revert b. induction t as [|c t IH]; intros b.
  - exists (sub_spaces b ws). split; [by apply blank_sub_spaces|done].
  - simpl. destruct (is_space c).
    + destruct (IH true) as (z & Hz & ->). exists z. split; [done|]. by destruct b.
    + destruct (IH false) as (z & Hz & ->). by exists z.
Qed.

Lemma rstrip_rec_app_blank y z : blank z → rstrip_rec (y ++ z) = rstrip_rec y.
Proof.
  intros Hz. induction y as [|c y IH]; [by apply rstrip_rec_blank|].
  simpl. by rewrite IH.
Qed.

Lemma strip_app_blank x z : blank z → strip (x ++ z) = strip x.
Proof.
  intros Hz. rewrite !strip_rec. induction x as [|c x IH].
  - simpl. rewrite <- (app_nil_r z), lstrip_blank by done. done.
  - simpl. destruct (is_space c); [done|].
    by rewrite app_comm_cons, rstrip_rec_app_blank.
Qed.

Lemma sub_spaces_app_word b a x r :
  is_space x = false →
  sub_spaces b (a ++ x :: r) = sub_spaces b (a ++ [x]) ++ sub_spaces false r.
Proof.
  intros Hx. revert b. induction a as [|c a IH]; intros b; simpl.
  - by rewrite Hx.
  - destruct (is_space c); [destruct b|]; by rewrite IH.
Qed.

Lemma sub_spaces_snoc_word b a x :
  is_space x = false → sub_spaces b (a ++ [x]) = sub_spaces b a ++ [x].
Proof.
  intros Hx. revert b. induction a as [|c a IH]; intros b; simpl.
  - by rewrite Hx.
  - destruct (is_space c); [destruct b|]; by rewrite IH.
Qed.

Lemma lstrip_app_snoc a x z :
  is_space x = false → lstrip ((a ++ [x]) ++ z) = lstrip (a ++ [x]) ++ z.
Proof.
  intros Hx. induction a as [|c a IH]; simpl.
  - by rewrite Hx.
  - by destruct (is_space c).
Qed.

Lemma lstrip_snoc_word a x :
  is_space x = false →
  lstrip (a ++ [x]) ≠ [] ∧ ends_in_word (lstrip (a ++ [x])) = true.
Proof.
  intros Hx. rewrite lstrip_snoc, Hx. destruct (lstrip a) as [|c l].
  - split; [done|]. unfold ends_in_word. simpl. by rewrite Hx.
  - split; [done|]. apply ends_in_word_app; [done|].
    unfold ends_in_word. simpl. by rewrite Hx.
Qed.

Lemma normalize_spaces_lead ws t :
  blank ws → Rate.normalize_spaces (ws ++ t) = Rate.normalize_spaces t.
Proof.
  intros Hws. destruct ws as [|c ws]; [done|].
  unfold Rate.normalize_spaces.
  rewrite !strip_rec, sub_spaces_false_blank by done.
  cbn [lstrip]. change (is_space 32) with true. cbv iota.
  by rewrite lstrip_sub_spaces_true.
Qed.

Lemma normalize_spaces_trail ws t :
  blank ws → Rate.normalize_spaces (t ++ ws) = Rate.normalize_spaces t.
Proof.
  intros Hws. unfold Rate.normalize_spaces.
  destruct (sub_spaces_app_blank false t ws Hws) as (z & Hz & ->).
  by apply strip_app_blank.
Qed.

Lemma normalize_spaces_run a x ws y b :
  is_space x = false → is_space y = false → blank ws → ws ≠ [] →
  Rate.normalize_spaces (a ++ x :: ws ++ y :: b)
  = Rate.normalize_spaces (a ++ [x]) ++ 32%N :: Rate.normalize_spaces (y :: b).
Proof.
  intros Hx Hy Hws Hne. unfold Rate.normalize_spaces.
  rewrite (sub_spaces_app_word false a x (ws ++ y :: b) Hx).
  rewrite (sub_spaces_false_blank ws (y :: b) Hws Hne).
  rewrite !strip_rec, (sub_spaces_snoc_word false a x Hx).
  rewrite lstrip_app_snoc by done.
  destruct (lstrip_snoc_word (sub_spaces false a) x Hx) as [Hl He].
  rewrite rstrip_rec_app, (rstrip_rec_ends_in_word _ He) by done.
  f_equal.
  assert (sub_spaces true (y :: b) = y :: sub_spaces false b) as ->
    by (simpl; by rewrite Hy).
  assert (sub_spaces false (y :: b) = y :: sub_spaces false b) as ->
    by (simpl; by rewrite Hy).
  rewrite lstrip_head_word by done.
  change (rstrip_rec (32%N :: ?B))
    with (match rstrip_rec B with
          | [] => if is_space 32 then [] else [32%N]
          | r' => 32%N :: r'
          end).
  destruct (rstrip_rec (y :: sub_spaces false b)) as [|c l] eqn:E; [|done].
  simpl in E. destruct (rstrip_rec (sub_spaces false b)); [|done].
  by rewrite Hy in E.
Qed.

(** X1. [normalize_spaces] gives a text whose white space is single spaces
    between words, with none at the start or at the end; it changes nothing
    in a text that has this form already, so that normalizing twice is
    normalizing once; it keeps the characters that are not white space, in
    their order; white space at the start and at the end of the text is
    removed; and a run of white space between two characters that are not
    white space becomes one space between the forms of what precedes it and
    of what follows it. *)
Theorem normalize_spaces_normal_form (s : str) :
  normalized (Rate.normalize_spaces s) = true ∧
  Rate.normalize_spaces (Rate.normalize_spaces s) = Rate.normalize_spaces s ∧
  List.filter (λ c, negb (is_space c)) (Rate.normalize_spaces s)
  = List.filter (λ c, negb (is_space c)) s ∧
  (normalized s = true ↔ Rate.normalize_spaces s = s) ∧
  (∀ ws, blank ws →
     Rate.normalize_spaces (ws ++ s) = Rate.normalize_spaces s ∧
     Rate.normalize_spaces (s ++ ws) = Rate.normalize_spaces s) ∧
  (∀ a x ws y b,
     s = a ++ x :: ws ++ y :: b →
     is_space x = false → is_space y = false → blank ws → ws ≠ [] →
     Rate.normalize_spaces s
     = Rate.normalize_spaces (a ++ [x]) ++ 32%N :: Rate.normalize_spaces (y :: b)) ∧
  (Forall (λ c, is_space c = false) s → Rate.normalize_spaces s = s).
Proof.
  split; [apply normalized_normalize_spaces|].
  split; [apply normalize_spaces_normalized, normalized_normalize_spaces|].
  split; [|split; [|split; [|split]]].
  - unfold Rate.normalize_spaces.
    by rewrite strip_rec, words_rstrip_rec, words_lstrip, words_sub_spaces.
  - split; [apply normalize_spaces_normalized|].
    intros <-. apply normalized_normalize_spaces.
  - intros ws Hws. split.
    + by apply normalize_spaces_lead.
    + by apply normalize_spaces_trail.
  - intros a x ws y b -> Hx Hy Hws Hne. by apply normalize_spaces_run.
  - intros Hs. apply normalize_spaces_normalized. unfold normalized.
    apply andb_true_iff. split.
    + assert (∀ p, single_spaced p s = true) as Hp; [|apply Hp].
      clear -Hs. induction Hs as [|c r Hc _ IH]; intros p; [done|].
      simpl. by rewrite Hc.
    + unfold ends_in_word. destruct (last s) as [c|] eqn:El; [|done].
      apply last_Some in El as [l ->].
      apply Forall_app in Hs as [_ Hc]. apply Forall_inv in Hc. by rewrite Hc.
Qed.

End Spaces.

(** ** Alias search and the matched set *)

Section Matching.
Context {ucd : UCD}.

Lemma match_here_Some eqc p t rest :
  match_here eqc p t = Some rest ↔
  ∃ m, t = m ++ rest ∧ Forall2 (λ a c, eqc a c = true) p m.
Proof.
  revert t. induction p as [|a p IH]; intros t; simpl.
  - split.
    + intros Heq. injection Heq as ->. exists []. split; [done|constructor].
    + intros (m & -> & Hm). by inversion Hm.
  - destruct t as [|c t].
    + split; [done|]. intros (m & Ht & Hm). inversion Hm; subst. done.
    + destruct (eqc a c) eqn:Eac.
      * rewrite IH. split.
        -- intros (m & -> & Hm). exists (c :: m). split; [done|by constructor].
        -- intros (m & Ht & Hm). inversion Hm as [|? c' ? m' Hac Hm']; subst.
           simplify_eq/=. by exists m'.
      * split; [done|]. intros (m & Ht & Hm).
        inversion Hm as [|? c' ? m' Hac Hm']; subst. simplify_eq/=. congruence.
Qed.

Lemma alias_search_from_inv alias prev t :
  alias_search_from alias prev t = true →
  ∃ pre suf, t = pre ++ suf ∧
             alias_at alias (last (option_list prev ++ pre)) suf = true.
Proof.
  revert prev. induction t as [|c t IH]; intros prev; simpl.
  - rewrite orb_false_r. intros Hat. exists [], []. split; [done|].
    rewrite app_nil_r. by destruct prev.
  - intros [Hat|Hs]%orb_true_iff.
    + exists [], (c :: t). split; [done|]. rewrite app_nil_r. by destruct prev.
    + apply IH in Hs as (pre & suf & -> & Hat). exists (c :: pre), suf.
      split; [done|]. rewrite <- Hat. f_equal. destruct prev; simpl.
      * rewrite last_cons. simpl. by destruct (last pre).
      * done.
Qed.

(** X2. The search of an alias pattern finds a match exactly when the text
    holds, somewhere, a run of characters equal to the alias up to case,
    that neither follows a word character nor is followed by one. *)
Theorem alias_search_occurrence (alias t : str) :
  alias_search alias t = true ↔
  ∃ pre m post,
    t = pre ++ m ++ post ∧
    Forall2 (λ a c, ieq a c = true) alias m ∧
    lookbehind_ok (last pre) = true ∧
    lookahead_ok post = true.
Proof.
  split.
  - intros (pre & suf & -> & Hat)%alias_search_from_inv. simpl in Hat.
    unfold alias_at in Hat. apply andb_true_iff in Hat as [Hb Hm].
    destruct (match_here ieq alias suf) as [rest|] eqn:E; [|done].
    apply match_here_Some in E as (m & -> & Hm').
    by exists pre, m, rest.
  - intros (pre & m & post & -> & Hm & Hb & Ha).
    apply alias_search_app. unfold alias_at. rewrite Hb. simpl.
    assert (match_here ieq alias (m ++ post) = Some post) as ->; [|done].
    apply match_here_Some. by exists m.
Qed.

Lemma matched_foldl (t : str) (table : list (str * Rate.Pattern))
    (acc : gset str) p :
  p ∈ foldl (λ (matched : gset str) '(canonical, rx),
               if Rate.rx_search rx t then matched ∪ {[ canonical ]} else matched)
            acc table
  ↔ p ∈ acc ∨ ∃ rx, (p, rx) ∈ table ∧ Rate.rx_search rx t = true.
Proof.
  revert acc. induction table as [|[c rx] table IH]; intros acc; simpl.
  - split; [by left|]. intros [?|(rx & Hin & _)]; [done|]. by apply elem_of_nil in Hin.
  - rewrite IH. split.
    + intros [Hacc|(rx' & Hin & Hs)].
      * destruct (Rate.rx_search rx t) eqn:E; [|by left].
        apply elem_of_union in Hacc as [?|Hc%elem_of_singleton]; [by left|].
        subst p. right. exists rx. split; [left|done].
      * right. exists rx'. split; [by right|done].
    + intros [Hacc|(rx' & Hin & Hs)].
      * left. destruct (Rate.rx_search rx t); [|done]. apply elem_of_union. by left.
      * apply elem_of_cons in Hin as [Heq|Hin].
        -- injection Heq as -> ->. left. rewrite Hs. apply elem_of_union. right. by apply elem_of_singleton.
        -- right. by exists rx'.
Qed.

Lemma matched_iff title table p :
  p ∈ Rate.match_performers_in_title title table ↔
  ∃ rx, (p, rx) ∈ table ∧ Rate.rx_search rx (Rate.normalize_spaces title) = true.
Proof.
  unfold Rate.match_performers_in_title. rewrite matched_foldl.
  split; [intros [?|?]; [set_solver|done]|by right].
Qed.

(** X3. The set that [match_performers_in_title] returns holds a name
    exactly when one of the patterns of that name in the table is found in
    the normalized title.  So the set does not depend on the order of the
    table, the set for two tables one after the other is the union of the
    two sets, and a title gives the same set as its normalized form. *)
Theorem match_performers_in_title_spec (title : str) :
  (∀ table p,
     p ∈ Rate.match_performers_in_title title table ↔
     ∃ rx, (p, rx) ∈ table ∧
           alias_search (Rate.pat_alias rx) (Rate.normalize_spaces title) = true) ∧
  (∀ table table', table ≡ₚ table' →
     Rate.match_performers_in_title title table
     = Rate.match_performers_in_title title table') ∧
  (∀ table table',
     Rate.match_performers_in_title title (table ++ table')
     = Rate.match_performers_in_title title table
       ∪ Rate.match_performers_in_title title table') ∧
  (∀ table,
     Rate.match_performers_in_title (Rate.normalize_spaces title) table
     = Rate.match_performers_in_title title table).
Proof.
  split; [intros; apply matched_iff|]. split; [|split].
  - intros table table' Hp. apply set_eq. intros p. rewrite !matched_iff.
    by setoid_rewrite Hp.
  - intros table table'. apply set_eq. intros p.
    rewrite elem_of_union, !matched_iff. split.
    + intros (rx & [Hin|Hin]%elem_of_app & Hs); [left|right]; by exists rx.
    + intros [(rx & Hin & Hs)|(rx & Hin & Hs)]; exists rx;
        (split; [apply elem_of_app; auto|done]).
  - intros table. apply set_eq. intros p. rewrite !matched_iff.
    by rewrite (normalize_spaces_normalized _ (normalized_normalize_spaces title)).
Qed.

End Matching.

(** ** Identifiers of videos *)

Section Identifiers.
Context {ucd : UCD}.

Lemma is_id_char_not_space c : Rate.is_id_char c = true → is_space c = false.
Proof.
  unfold Rate.is_id_char, is_space, is_ascii, ascii_upper_letter,
    ascii_lower_letter, ascii_digit.
  intros H.
  assert (45 ≤ c ≤ 122)%N as Hc.
  { repeat (apply orb_true_iff in H as [H|H]);
      try (apply andb_true_iff in H as [?%N.leb_le ?%N.leb_le]);
      try (apply N.eqb_eq in H); lia. }
  assert ((c <? 128)%N = true) as -> by (apply N.ltb_lt; lia).
  apply orb_false_iff. split; apply andb_false_iff.
  - right. apply N.leb_gt. lia.
  - right. apply N.leb_gt. lia.
Qed.

Lemma is_video_id_ends_in_word g :
  is_video_id g → g ≠ [] ∧ ends_in_word g = true ∧
  ∃ c r, g = c :: r ∧ is_space c = false.
Proof.
  intros [Hl Hf]. destruct g as [|c r]; [done|]. split; [done|]. split.
  - unfold ends_in_word. destruct (last (c :: r)) as [x|] eqn:El; [|done].
    apply last_Some in El as (l' & El). rewrite El in Hf.
    rewrite forallb_app in Hf. apply andb_true_iff in Hf as [_ Hx]. simpl in Hx.
    apply andb_true_iff in Hx as [Hx _]. by rewrite (is_id_char_not_space _ Hx).
  - exists c, r. split; [done|]. simpl in Hf. apply andb_true_iff in Hf as [Hc _].
    by apply is_id_char_not_space.
Qed.

Lemma match_here_eqb p t rest :
  match_here N.eqb p t = Some rest ↔ t = p ++ rest.
Proof.
  rewrite match_here_Some. split.
  - intros (m & -> & Hm). f_equal. symmetry.
    induction Hm as [|a c p m Hac _ IH]; [done|].
    apply N.eqb_eq in Hac as ->. by rewrite IH.
  - intros ->. exists p. split; [done|].
    induction p as [|a p IH]; constructor; [apply N.eqb_refl|done].
Qed.

Lemma id11_Some t g :
  Rate.id11 t = Some g ↔ is_video_id g ∧ ∃ post, t = g ++ post.
Proof.
  unfold Rate.id11, is_video_id. split.
  - destruct (_ && _) eqn:E; [|done]. intros Heq. injection Heq as <-.
    apply andb_true_iff in E as [Hl%Nat.eqb_eq Hf]. split; [done|].
    exists (drop 11 t). by rewrite take_drop.
  - intros ([Hl Hf] & post & ->).
    rewrite take_app_length' by done. by rewrite Hl, Hf.
Qed.

Lemma yt_id_alts_Some alts t g :
  Rate.yt_id_alts alts t = Some g →
  is_video_id g ∧ ∃ a post, a ∈ alts ∧ t = a ++ g ++ post.
Proof.
  induction alts as [|a alts IH]; [done|]. simpl.
  destruct (match_here N.eqb a t) as [rest|] eqn:Em.
  - destruct (Rate.id11 rest) as [g'|] eqn:Ei.
    + intros Heq. injection Heq as ->. apply id11_Some in Ei as (Hg & post & ->).
      apply match_here_eqb in Em as ->. split; [done|].
      exists a, post. split; [left|done].
    + intros (Hg & a' & post & Hin & ->)%IH. split; [done|].
      exists a', post. split; [by right|done].
  - intros (Hg & a' & post & Hin & ->)%IH. split; [done|].
    exists a', post. split; [by right|done].
Qed.

Lemma yt_id_search_Some t g :
  Rate.yt_id_search t = Some g →
  is_video_id g ∧ ∃ pre a post, a ∈ id_prefixes ∧ t = pre ++ a ++ g ++ post.
Proof.
  induction t as [|c t IH]; simpl.
  - done.
  - destruct (Rate.yt_id_at (c :: t)) eqn:E.
    + intros Heq. injection Heq as ->.
      apply yt_id_alts_Some in E as (Hg & a & post & Hin & Ht).
      split; [done|]. by exists [], a, post.
    + intros (Hg & pre & a & post & Hin & ->)%IH. split; [done|].
      by exists (c :: pre), a, post.
Qed.

Lemma extract_video_id_is_video_id s g :
  Rate.extract_video_id s = Some g → is_video_id g.
Proof.
  unfold Rate.extract_video_id. destruct (strip s) as [|c r]; [done|].
  destruct (_ && _) eqn:E.
  - intros Heq. injection Heq as <-. by apply andb_true_iff in E as [Hl%Nat.eqb_eq Hf].
  - by intros (Hg & _)%yt_id_search_Some.
Qed.

(** X4. An identifier that [extract_video_id] returns has eleven characters
    among the letters, the digits, [_] and [-]; it is the whole text, white
    space at both ends apart, or it stands in that text just after [v=],
    [/shorts/] or [youtu.be/].  A text of white space only gives no
    identifier. *)
Theorem extract_video_id_shape (s g : str) :
  Rate.extract_video_id s = Some g →
  is_video_id g ∧
  (strip s = g ∨
   ∃ pre a post, a ∈ id_prefixes ∧ strip s = pre ++ a ++ g ++ post) ∧
  strip s ≠ [].
Proof.
  unfold Rate.extract_video_id. destruct (strip s) as [|c r] eqn:Es; [done|].
  destruct (_ && _) eqn:E.
  - intros Heq. injection Heq as <-. apply andb_true_iff in E as [Hl%Nat.eqb_eq Hf].
    split; [done|]. split; [by left|done].
  - intros (Hg & Hex)%yt_id_search_Some. split; [done|]. split; [by right|done].
Qed.

End Identifiers.

Lemma extract_video_id_shape_witness :
  is_video_id (u "dQw4w9WgXcQ") ∧
  (strip (ucd := ascii_ucd) (u " https://youtu.be/dQw4w9WgXcQ?t=1 ") = u "dQw4w9WgXcQ" ∨
   ∃ pre a post, a ∈ id_prefixes ∧
     strip (ucd := ascii_ucd) (u " https://youtu.be/dQw4w9WgXcQ?t=1 ")
     = pre ++ a ++ u "dQw4w9WgXcQ" ++ post) ∧
  strip (ucd := ascii_ucd) (u " https://youtu.be/dQw4w9WgXcQ?t=1 ") ≠ [].
Proof.
  apply (extract_video_id_shape (ucd := ascii_ucd)). vm_compute. reflexivity.
Defined.

Section IdentifierRoundTrip.
Context {ucd : UCD}.

Lemma yt_id_search_skip c t :
  Rate.yt_id_at (c :: t) = None → Rate.yt_id_search (c :: t) = Rate.yt_id_search t.
Proof. intros E. simpl. by rewrite E. Qed.

Lemma yt_id_search_here t g :
  Rate.yt_id_at t = Some g → Rate.yt_id_search t = Some g.
Proof. intros E. destruct t; [done|]. simpl. by rewrite E. Qed.

Lemma id11_app g post : is_video_id g → Rate.id11 (g ++ post) = Some g.
Proof. intros Hg. apply id11_Some. split; [done|]. by exists post. Qed.

(** The code points of the literals of the goal. *)
Ltac eval_literals :=
  repeat match goal with
  | |- context [u ?s] =>
    let v := eval vm_compute in (u s) in change (u s) with v
  end.

Lemma yt_id_at_prefix a g post :
  a ∈ id_prefixes → is_video_id g → Rate.yt_id_at (a ++ g ++ post) = Some g.
Proof.
  intros Ha Hg. unfold id_prefixes in Ha.
  repeat (apply elem_of_cons in Ha as [->|Ha]); [..|by apply elem_of_nil in Ha];
    unfold Rate.yt_id_at; eval_literals; cbn -[Rate.id11]; by rewrite id11_app.
Qed.

(** What [extract_video_id] does on a locator that starts with a character
    that is not white space and in which the search finds the identifier. *)
Lemma extract_video_id_locator c P g tail :
  is_space c = false → is_video_id g →
  (∀ post, Rate.yt_id_search ((c :: P) ++ g ++ post) = Some g) →
  Rate.extract_video_id ((c :: P) ++ g ++ tail) = Some g.
Proof.
  intros Hc Hg Hsearch. unfold Rate.extract_video_id.
  destruct (is_video_id_ends_in_word g Hg) as (Hne & He & _).
  assert (strip ((c :: P) ++ g ++ tail) = (c :: P) ++ g ++ rstrip_rec tail) as ->.
  { rewrite strip_rec. change ((c :: P) ++ g ++ tail) with (c :: (P ++ g ++ tail)).
    rewrite lstrip_head_word by done.
    change (c :: P ++ g ++ tail) with ((c :: P) ++ g ++ tail).
    rewrite (app_assoc (c :: P) g tail), rstrip_rec_app, <- app_assoc; [done|done|].
    by apply ends_in_word_app. }
  change ((c :: P) ++ g ++ rstrip_rec tail) with (c :: (P ++ g ++ rstrip_rec tail)).
  cbv iota.
  change (c :: P ++ g ++ rstrip_rec tail) with ((c :: P) ++ g ++ rstrip_rec tail).
  destruct Hg as [Hl Hf].
  assert ((length ((c :: P) ++ g ++ rstrip_rec tail) =? 11)%nat = false) as ->.
  { apply Nat.eqb_neq. rewrite !length_app, Hl. simpl. lia. }
  simpl andb. cbv iota. apply Hsearch.
Qed.

Ltac skip_to_prefix :=
  repeat (rewrite yt_id_search_skip by reflexivity).

(** The code points of the literals of the goal, computed. *)
Ltac compute_literals :=
  repeat match goal with
  | |- context [u ?s] =>
    let v := eval vm_compute in (u s) in
    let H := fresh in
    assert (u s = v) as H by (vm_compute; reflexivity); rewrite H; clear H
  end.

(** A locator that is a text, then the prefix [a] of identifiers, then the
    identifier [g]. *)
Ltac locator_with a g :=
  compute_literals;
  apply extract_video_id_locator; [done|done|];
  let post := fresh "post" in
  intros post; cbn [app]; skip_to_prefix;
  let v := eval vm_compute in a in
  change (Rate.yt_id_search (v ++ g ++ post) = Some g);
  apply yt_id_search_here, yt_id_at_prefix; [|done];
  unfold id_prefixes; compute_literals; set_solver.

(** X5. [extract_video_id] reads back an identifier: from the identifier
    itself, and from a watch locator, a short locator and a [youtu.be]
    locator of the video, whatever follows the identifier. *)
Theorem extract_video_id_round_trip (g : str) :
  is_video_id g →
  Rate.extract_video_id g = Some g ∧
  ∀ tail,
    Rate.extract_video_id (u "https://www.youtube.com/watch?v=" ++ g ++ tail) = Some g ∧
    Rate.extract_video_id (u "https://www.youtube.com/shorts/" ++ g ++ tail) = Some g ∧
    Rate.extract_video_id (u "https://youtu.be/" ++ g ++ tail) = Some g.
Proof.
  intros Hg. split.
  - destruct (is_video_id_ends_in_word g Hg) as (Hne & He & c & r & -> & Hc).
    unfold Rate.extract_video_id.
    rewrite strip_rec, lstrip_head_word, rstrip_rec_ends_in_word by done.
    destruct Hg as [Hl Hf]. by rewrite Hl, Hf.
  - intros tail. repeat split.
    + locator_with (u "v=") g.
    + locator_with (u "/shorts/") g.
    + locator_with (u "youtu.be/") g.
Qed.

End IdentifierRoundTrip.

Lemma extract_video_id_round_trip_witness :
  Rate.extract_video_id (ucd := ascii_ucd) (u "dQw4w9WgXcQ") = Some (u "dQw4w9WgXcQ").
Proof.
  refine (proj1 (extract_video_id_round_trip (ucd := ascii_ucd) (u "dQw4w9WgXcQ") _)).
  split; vm_compute; reflexivity.
Defined.

(** ** The exceptions file *)

Section Exceptions.
Context {ucd : UCD}.

Lemma lstrip_head s :
  lstrip s = [] ∨ ∃ c r, lstrip s = c :: r ∧ is_space c = false.
Proof.
  induction s as [|c r IH]; [by left|]. simpl.
  destruct (is_space c) eqn:Ec; [done|]. right. by exists c, r.
Qed.

Lemma strip_head s :
  strip s = [] ∨ ∃ c r, strip s = c :: r ∧ is_space c = false.
Proof.
  rewrite strip_rec. destruct (lstrip_head s) as [->|(c & r & -> & Hc)]; [by left|].
  right. simpl. destruct (rstrip_rec r) as [|x l].
  - rewrite Hc. by exists c, [].
  - by exists c, (x :: l).
Qed.

Lemma strip_strip s : strip (strip s) = strip s.
Proof.
  rewrite (strip_rec (strip s)).
  assert (lstrip (strip s) = strip s) as ->.
  { destruct (strip_head s) as [->|(c & r & -> & Hc)]; [done|].
    by apply lstrip_head_word. }
  apply rstrip_rec_ends_in_word. rewrite strip_rec. apply ends_in_word_rstrip_rec.
Qed.

Lemma extract_video_id_strip s :
  Rate.extract_video_id (strip s) = Rate.extract_video_id s.
Proof. unfold Rate.extract_video_id. by rewrite strip_strip. Qed.

Lemma load_exceptions_line_spec ids urls raw :
  Rate.load_exceptions_line (ids, urls) raw
  = if effective raw
    then (match Rate.extract_video_id raw with
          | Some vid => ids ∪ {[ vid ]}
          | None => ids
          end, urls ∪ {[ strip raw ]})
    else (ids, urls).
Proof.
  unfold Rate.load_exceptions_line, effective.
  destruct (strip raw) as [|c line] eqn:Es; [done|].
  destruct (startswith (u "#") (c :: line)); [done|]. simpl.
  rewrite <- Es, extract_video_id_strip. by destruct (Rate.extract_video_id raw).
Qed.

Lemma load_exceptions_foldl lines ids urls :
  let E := foldl Rate.load_exceptions_line (ids, urls) lines in
  (∀ g, g ∈ fst E ↔
        g ∈ ids ∨ ∃ raw, raw ∈ lines ∧ effective raw = true ∧
                         Rate.extract_video_id raw = Some g) ∧
  (∀ x, x ∈ snd E ↔
        x ∈ urls ∨ ∃ raw, raw ∈ lines ∧ effective raw = true ∧ strip raw = x).
Proof.
  revert ids urls. induction lines as [|raw lines IH]; intros ids urls E; subst E.
  - simpl. split; intros y; (split; [by left|]);
      intros [?|(raw & Hin & _)]; try done; by apply elem_of_nil in Hin.
  - cbn [foldl]. rewrite load_exceptions_line_spec.
    destruct (effective raw) eqn:Eeff.
    + destruct (IH (match Rate.extract_video_id raw with
                    | Some vid => ids ∪ {[ vid ]}
                    | None => ids
                    end) (urls ∪ {[ strip raw ]})) as [Hids Hurls].
      split.
      * intros g. rewrite Hids. split.
        -- intros [Hg|(raw' & Hin & He & Hx)].
           ++ destruct (Rate.extract_video_id raw) as [vid|] eqn:Ev; [|by left].
              apply elem_of_union in Hg as [?|Hg%elem_of_singleton]; [by left|].
              subst. right. exists raw. split; [left|done].
           ++ right. exists raw'. split; [by right|done].
        -- intros [Hg|(raw' & Hin & He & Hx)].
           ++ left. destruct (Rate.extract_video_id raw); [|done].
              apply elem_of_union. by left.
           ++ apply elem_of_cons in Hin as [->|Hin].
              ** left. rewrite Hx. apply elem_of_union. right.
                 by apply elem_of_singleton.
              ** right. by exists raw'.
      * intros x. rewrite Hurls. split.
        -- intros [Hx|(raw' & Hin & He & Hx)].
           ++ apply elem_of_union in Hx as [?|Hx%elem_of_singleton]; [by left|].
              subst. right. exists raw. split; [left|done].
           ++ right. exists raw'. split; [by right|done].
        -- intros [Hx|(raw' & Hin & He & Hx)].
           ++ left. apply elem_of_union. by left.
           ++ apply elem_of_cons in Hin as [->|Hin].
              ** left. apply elem_of_union. right. by apply elem_of_singleton.
              ** right. by exists raw'.
    + destruct (IH ids urls) as [Hids Hurls]. split.
      * intros g. rewrite Hids. split.
        -- intros [?|(raw' & Hin & He & Hx)]; [by left|].
           right. exists raw'. split; [by right|done].
        -- intros [?|(raw' & Hin & He & Hx)]; [by left|].
           apply elem_of_cons in Hin as [->|Hin]; [congruence|].
           right. by exists raw'.
      * intros x. rewrite Hurls. split.
        -- intros [?|(raw' & Hin & He & Hx)]; [by left|].
           right. exists raw'. split; [by right|done].
        -- intros [?|(raw' & Hin & He & Hx)]; [by left|].
           apply elem_of_cons in Hin as [->|Hin]; [congruence|].
           right. by exists raw'.
Qed.

(** X6. The exceptions file decides the exclusion as follows.  A video is
    excluded exactly when some line of the file that is read (not blank, not
    starting with [#] after [strip]) gives its identifier by
    [extract_video_id] or is, white space at both ends apart, its locator.
    Every excluded identifier is well formed, and without a file no video is
    excluded. *)
Theorem load_exceptions_excluded (lines : list str) :
  let E := Rate.load_exceptions (Some lines) in
  (∀ v, Rate.excluded (fst E) (snd E) v = true ↔
        ∃ raw, raw ∈ lines ∧ effective raw = true ∧
               (Rate.extract_video_id raw = Some (Rate.video_id v) ∨
                strip raw = Rate.url v)) ∧
  (∀ g, g ∈ fst E → is_video_id g) ∧
  (∀ v, Rate.excluded (fst (Rate.load_exceptions None))
          (snd (Rate.load_exceptions None)) v = false).
Proof.
  intros E. destruct (load_exceptions_foldl lines ∅ ∅) as [Hids Hurls].
  fold (Rate.load_exceptions (Some lines)) in Hids, Hurls. fold E in Hids, Hurls.
  split; [|split].
  - intros v. unfold Rate.excluded.
    rewrite orb_true_iff, !bool_decide_eq_true, Hids, Hurls. split.
    + intros [[H|(raw & ? & ? & ?)]|[H|(raw & ? & ? & ?)]].
      * by apply elem_of_empty in H.
      * exists raw. auto.
      * by apply elem_of_empty in H.
      * exists raw. auto.
    + intros (raw & Hin & He & [Hx|Hx]); [left|right]; right; by exists raw.
  - intros g [H|(raw & _ & _ & Hx)]%Hids; [by apply elem_of_empty in H|].
    by apply extract_video_id_is_video_id in Hx.
  - intros v. unfold Rate.excluded. simpl.
    apply orb_false_iff. split; apply bool_decide_eq_false; set_solver.
Qed.

End Exceptions.

(** ** Reading the table of videos *)

Section ReadRow.
Context {ucd : UCD} {builtins : Builtins}.

(** X7. [read_videos_csv] keeps a row exactly when its identifier cell is
    not blank or an identifier can be extracted from its locator.  A video
    that is read has an identifier and a locator that are not empty: the
    identifier is the cell without the white space at its ends, or else the
    well-formed identifier extracted from the locator; the locator is the
    cell, or else the watch locator made of the identifier. *)
Theorem read_row_kept (r : gmap str str) :
  (Rate.read_row r = None ↔
   csv_identifier r = [] ∧ Rate.extract_video_id (csv_locator r) = None) ∧
  (∀ v, Rate.read_row r = Some v →
     Rate.video_id v ≠ [] ∧ Rate.url v ≠ [] ∧
     (csv_identifier r ≠ [] ∧ Rate.video_id v = csv_identifier r ∨
      csv_identifier r = [] ∧ is_video_id (Rate.video_id v) ∧
      Rate.extract_video_id (csv_locator r) = Some (Rate.video_id v)) ∧
     (csv_locator r ≠ [] ∧ Rate.url v = csv_locator r ∨
      csv_locator r = [] ∧
      Rate.url v = u "https://www.youtube.com/watch?v=" ++ Rate.video_id v)).
Proof.
  unfold Rate.read_row, csv_identifier, csv_locator. cbv zeta.
  set (loc := strip (as_str (por (Rate.get r "url") _))).
  set (cell := strip (as_str (por (Rate.get r "video_id") _))).
  destruct cell as [|c cell'] eqn:Ec.
  - destruct (Rate.extract_video_id loc) as [g|] eqn:Eg.
    + pose proof (extract_video_id_is_video_id _ _ Eg) as Hg.
      assert (g ≠ []) as Hne by (destruct Hg as [Hl _]; by destruct g).
      destruct g as [|x g']; [done|]. split.
      * split; [done|]. by intros [_ ?].
      * intros v Hv. injection Hv as <-. simpl.
        split; [done|]. split; [by destruct loc|]. split; [by right|].
        destruct loc; [by right|by left].
    + split; [done|]. done.
  - split; [split; [done|by intros [? _]]|].
    intros v Hv. injection Hv as <-. simpl.
    split; [done|]. split; [by destruct loc|]. split; [by left|].
    destruct loc; [by right|by left].
Qed.

End ReadRow.

(** ** Decimal numerals *)

Section Decimal.
Context {ucd : UCD}.

Lemma u_String c s :
  (N_of_ascii c <? 128)%N = true → u (String c s) = N_of_ascii c :: u s.
Proof. intros Hc. unfold u. simpl. by rewrite Hc. Qed.

Lemma uint_value_pos d p : uint_value d (Z.pos p) = Z.pos (Pos.of_uint_acc d p).
Proof. revert p. induction d; intros p; simpl; [done|rewrite <- IHd; f_equal; lia..]. Qed.

Lemma uint_value_0 d : uint_value d 0 = Z.of_N (Pos.of_uint d).
Proof.
  induction d; simpl; [done|exact IHd|..];
    match goal with |- uint_value _ ?k = _ => change k with (Z.pos (Z.to_pos k)) end;
    by rewrite uint_value_pos.
Qed.

Ltac read_digit :=
  simpl (NilEmpty.string_of_uint _); rewrite u_String by reflexivity;
  lazymatch goal with
  | |- context [N_of_ascii ?c] =>
    let v := eval vm_compute in (N_of_ascii c) in change (N_of_ascii c) with v
  end.

Lemma digits_uint d acc n rest :
  no_digit_first rest →
  Rate.digits acc n (u (NilEmpty.string_of_uint d) ++ rest)
  = (uint_value d acc, (n + Decimal.nb_digits d)%nat, rest).
Proof.
  intros Hrest. revert acc n.
  induction d; intros acc n;
    [ simpl; rewrite Nat.add_0_r; destruct rest as [|c rest]; [done|];
      simpl; simpl in Hrest; by rewrite Hrest
    | read_digit; cbn [app Rate.digits];
      lazymatch goal with
      | |- context [Rate.digit_value ?c] =>
        let v := eval vm_compute in (Rate.digit_value c) in
        change (Rate.digit_value c) with v
      end;
      cbv iota; rewrite IHd; simpl; do 2 f_equal; lia .. ].
Qed.

Lemma decimal_uint d acc :
  decimal acc (u (NilEmpty.string_of_uint d)) = Some (uint_value d acc).
Proof.
  revert acc. induction d; intros acc;
    [ done
    | read_digit; cbn [decimal];
      lazymatch goal with
      | |- context [ascii_digit ?c] =>
        let v := eval vm_compute in (ascii_digit c) in
        change (ascii_digit c) with v
      end;
      cbv iota; rewrite IHd; simpl; do 2 f_equal; lia .. ].
Qed.

Lemma ascii_digits_uint d :
  Forall (λ c, ascii_digit c = true) (u (NilEmpty.string_of_uint d)).
Proof. induction d; [constructor|read_digit; by constructor ..]. Qed.

Lemma to_uint_value p : uint_value (Pos.to_uint p) 0 = Z.pos p.
Proof. by rewrite uint_value_0, Unsigned.of_to. Qed.

Lemma to_uint_nb_digits p : (0 < Decimal.nb_digits (Pos.to_uint p))%nat.
Proof.
  pose proof (Unsigned.of_to p) as H.
  destruct (Pos.to_uint p); simpl in *; [done|lia..].
Qed.

(** The numeral of an integer that is not negative: its characters are
    digits, there is one at least, and reading them gives the integer. *)
Lemma str_of_Z_numeral z :
  (0 ≤ z)%Z →
  ∃ d, str_of_Z z = u (NilEmpty.string_of_uint d) ∧
       uint_value d 0 = z ∧ (0 < Decimal.nb_digits d)%nat.
Proof.
  intros Hz. unfold str_of_Z. destruct z as [|p|p]; [| |lia].
  - exists (Decimal.D0 Decimal.Nil). split; [done|]. split; [done|simpl; lia].
  - exists (Pos.to_uint p). split; [done|].
    split; [apply to_uint_value|apply to_uint_nb_digits].
Qed.

Lemma digits_str_of_Z z rest :
  (0 ≤ z)%Z → no_digit_first rest →
  ∃ n, Rate.digits 0 0 (str_of_Z z ++ rest) = (z, S n, rest).
Proof.
  intros Hz Hrest. destruct (str_of_Z_numeral z Hz) as (d & -> & Hv & Hn).
  rewrite digits_uint, Hv by done. simpl.
  destruct (Decimal.nb_digits d) as [|n]; [lia|]. by exists n.
Qed.

Lemma str_of_Z_digits z :
  (0 ≤ z)%Z → str_of_Z z ≠ [] ∧ Forall (λ c, ascii_digit c = true) (str_of_Z z).
Proof.
  intros Hz. destruct (str_of_Z_numeral z Hz) as (d & -> & Hv & Hn).
  split; [|apply ascii_digits_uint].
  destruct d; simpl in Hn; [lia|read_digit; done ..].
Qed.

End Decimal.

(** ** Durations *)

Section Durations.
Context {ucd : UCD}.

Lemma strip_blank p b q :
  blank p → blank q →
  b ≠ [] → (∀ c r, b = c :: r → is_space c = false) → ends_in_word b = true →
  strip (p ++ b ++ q) = b.
Proof.
  intros Hp Hq Hb Hhead Hlast. rewrite strip_rec, lstrip_blank by done.
  destruct b as [|c r]; [done|].
  change ((c :: r) ++ q) with (c :: (r ++ q)).
  rewrite lstrip_head_word by by eapply Hhead.
  change (c :: (r ++ q)) with ((c :: r) ++ q).
  by rewrite rstrip_rec_app, rstrip_rec_blank, app_nil_r.
Qed.

Lemma iso_group_present letter n rest :
  Rate.digit_value letter = None →
  Rate.iso_group letter (iso_part letter (Some n) ++ rest) = (Z.of_N n, rest).
Proof.
  intros Hl. unfold Rate.iso_group, iso_part. rewrite <- app_assoc. simpl app.
  destruct (digits_str_of_Z (Z.of_N n) (letter :: rest)) as [k ->];
    [lia|done|]. by rewrite N.eqb_refl.
Qed.

Lemma iso_group_other letter l' n rest :
  Rate.digit_value l' = None → letter ≠ l' →
  Rate.iso_group letter (iso_part l' (Some n) ++ rest)
  = (0%Z, iso_part l' (Some n) ++ rest).
Proof.
  intros Hl Hne. unfold Rate.iso_group, iso_part. rewrite <- app_assoc. simpl app.
  destruct (digits_str_of_Z (Z.of_N n) (l' :: rest)) as [k ->]; [lia|done|].
  by destruct (N.eqb_spec l' letter); [subst|].
Qed.

Lemma iso_group_nil letter : Rate.iso_group letter [] = (0%Z, []).
Proof. done. Qed.

Lemma iso_group_part letter v rest :
  Rate.digit_value letter = None →
  Rate.iso_group letter rest = (0%Z, rest) →
  Rate.iso_group letter (iso_part letter v ++ rest) = (part_value v, rest).
Proof. intros Hl Hrest. destruct v as [n|]; [by apply iso_group_present|done]. Qed.

Lemma iso_group_absent letter l' v rest :
  Rate.digit_value l' = None → letter ≠ l' →
  Rate.iso_group letter rest = (0%Z, rest) →
  Rate.iso_group letter (iso_part l' v ++ rest) = (0%Z, iso_part l' v ++ rest).
Proof. intros Hl Hne Hrest. destruct v as [n|]; [by apply iso_group_other|done]. Qed.

Lemma strip_word b :
  b ≠ [] → (∀ c r, b = c :: r → is_space c = false) → ends_in_word b = true →
  strip b = b.
Proof.
  intros Hb Hhead Hlast.
  rewrite <- (app_nil_r b) at 1.
  apply (strip_blank [] b []); [constructor|constructor|done..].
Qed.

Lemma ends_in_word_iso_part l v a :
  is_space l = false → a ≠ [] → ends_in_word a = true →
  a ++ iso_part l v ≠ [] ∧ ends_in_word (a ++ iso_part l v) = true.
Proof.
  intros Hl Hne Ha. destruct v as [n|]; simpl.
  - split; [by destruct a|].
    rewrite app_assoc. apply ends_in_word_app; [done|].
    unfold ends_in_word. simpl. by rewrite Hl.
  - by rewrite app_nil_r.
Qed.

Lemma iso8601_shape h m s :
  ∃ r, iso8601 h m s = 80%N :: r ∧ ends_in_word (iso8601 h m s) = true.
Proof.
  unfold iso8601. exists (84%N :: iso_part 72 h ++ iso_part 77 m ++ iso_part 83 s).
  split; [done|].
  destruct (ends_in_word_iso_part 72 h (u "PT")) as [H1 H2]; [done..|].
  destruct (ends_in_word_iso_part 77 m _ eq_refl H1 H2) as [H3 H4].
  destruct (ends_in_word_iso_part 83 s _ eq_refl H3 H4) as [H5 H6].
  by rewrite !app_assoc.
Qed.

Lemma parse_groups h m s :
  Fetch.parse_duration (iso8601 h m s)
  = (part_value h * 3600 + part_value m * 60 + part_value s)%Z.
Proof.
  unfold Fetch.parse_duration, iso8601.
  change (match_here N.eqb (u "PT") (u "PT" ++ ?t)) with (Some t). cbv iota.
  rewrite <- (app_nil_r (iso_part 83 s)).
  rewrite (iso_group_part 72), (iso_group_part 77), (iso_group_part 83); try done.
  - apply iso_group_absent; done.
  - apply iso_group_absent; [done|done|]. apply iso_group_absent; done.
Qed.

(** X8. The two parsers of ISO 8601 durations read back hours, minutes and
    seconds, whichever of the three groups are given; [rate.py]'s ignores
    white space around the text, [fetch.py]'s gives 0 when the text is
    preceded by white space; groups out of order give 0. *)
Theorem parse_duration_iso8601_round_trip (h m s : option N) (p q : str) :
  blank p → blank q →
  Rate.parse_duration_iso8601 (p ++ iso8601 h m s ++ q)
  = (part_value h * 3600 + part_value m * 60 + part_value s)%Z ∧
  Fetch.parse_duration (iso8601 h m s)
  = (part_value h * 3600 + part_value m * 60 + part_value s)%Z ∧
  (p ≠ [] → Fetch.parse_duration (p ++ iso8601 h m s ++ q) = 0%Z) ∧
  ∀ a b : N,
    Rate.parse_duration_iso8601
      (u "PT" ++ iso_part 83 (Some a) ++ iso_part 77 (Some b)) = 0%Z.
Proof.
  intros Hp Hq. split; [|split; [apply parse_groups|split]].
  - destruct (iso8601_shape h m s) as (r & Hr & He).
    unfold Rate.parse_duration_iso8601.
    rewrite strip_blank; [|done|done|by rewrite Hr|by rewrite Hr; intros ? ? [= <- _]|done].
    apply parse_groups.
  - intros Hne. destruct Hp as [|c p Hc Hp]; [congruence|].
    unfold Fetch.parse_duration.
    assert (match_here N.eqb (u "PT") ((c :: p) ++ iso8601 h m s ++ q) = None)
      as ->; [|done].
    change (u "PT") with [80%N; 84%N]. cbn [app match_here].
    destruct (N.eqb_spec 80 c) as [<-|_]; [|done]. by vm_compute in Hc.
  - intros a b. unfold Rate.parse_duration_iso8601.
    rewrite strip_word.
    + change (match_here N.eqb (u "PT") (u "PT" ++ ?t)) with (Some t). cbv iota.
      rewrite (iso_group_other 72) by done.
      rewrite (iso_group_other 77) by done.
      rewrite (iso_group_present 83) by done.
      unfold iso_part. by destruct (str_of_Z (Z.of_N b)).
    + done.
    + by intros ? ? [= <- _].
    + destruct (ends_in_word_iso_part 83 (Some a) (u "PT")) as [H1 H2]; [done..|].
      destruct (ends_in_word_iso_part 77 (Some b) _ eq_refl H1 H2) as [H3 H4].
      by rewrite !app_assoc.
Qed.

End Durations.


Lemma parse_duration_iso8601_round_trip_witness :
  Rate.parse_duration_iso8601 (ucd := ascii_ucd)
    ([32%N] ++ iso8601 (Some 1%N) (Some 2%N) (Some 3%N) ++ [10%N]) = 3723%Z.
Proof.
  refine (proj1 (parse_duration_iso8601_round_trip (ucd := ascii_ucd)
                   (Some 1%N) (Some 2%N) (Some 3%N) [32%N] [10%N] _ _));
    repeat constructor.
Defined.

